(** * yt_downloader: the search, scoring and fetch pipeline of
      [bin/youtube_downloader_V3.4.py], embedded in Rocq.

    Python [str] values are modelled as [string] (sequences of 8-bit
    characters) with ASCII case folding and ASCII white space; Python
    integers as [Z].  The yt-dlp info dictionaries are records whose
    optional keys are [option] fields.  Exceptions are the instances of
    [Exception].  The network, the file system and the fetcher are an
    abstract world that is threaded through every call; every computation
    also yields the trace of what it did to the outside.  Standard output
    is not modelled, except for the report of failed fetches and the error
    line of a failed task, which are events of the trace.

    The functions that wait for the search worker take the behaviour of
    the waiting loop as a parameter; the script is the instance
    [poll_wait fuel] of that parameter. *)

From Stdlib Require Import String Ascii List ZArith Bool Lia DecimalString.
Import ListNotations.
Open Scope string_scope.
Open Scope Z_scope.

(* ------------------------------------------------------------------ *)
(** ** Strings *)

Module Str.

Definition chars (s : string) : list ascii := list_ascii_of_string s.
Definition of_chars (l : list ascii) : string := string_of_list_ascii l.

(** [c.lower()] on one ASCII character. *)
Definition lower_ascii (c : ascii) : ascii :=
  let n := nat_of_ascii c in
  if (Nat.leb 65 n && Nat.leb n 90)%bool then ascii_of_nat (n + 32) else c.

(** [s.lower()] *)
Fixpoint lower (s : string) : string :=
  match s with
  | EmptyString => EmptyString
  | String c r => String (lower_ascii c) (lower r)
  end.

(** [s.startswith(p)] *)
Fixpoint startswith (s p : string) : bool :=
  match p, s with
  | EmptyString, _ => true
  | String _ _, EmptyString => false
  | String a p', String b s' => (Ascii.eqb a b && startswith s' p')%bool
  end.

(** [sub in s] *)
Fixpoint contains (sub s : string) : bool :=
  (startswith s sub ||
   match s with
   | EmptyString => false
   | String _ r => contains sub r
   end)%bool.

(** White space removed by [str.strip()] (ASCII range). *)
Definition is_space (c : ascii) : bool :=
  let n := nat_of_ascii c in
  ((Nat.leb 9 n && Nat.leb n 13) || (Nat.leb 28 n && Nat.leb n 32))%bool.

Fixpoint lstrip_by (p : ascii -> bool) (l : list ascii) : list ascii :=
  match l with
  | [] => []
  | c :: r => if p c then lstrip_by p r else l
  end.

Definition rstrip_by (p : ascii -> bool) (l : list ascii) : list ascii :=
  rev (lstrip_by p (rev l)).

(** [s.strip()] *)
Definition strip (s : string) : string :=
  of_chars (rstrip_by is_space (lstrip_by is_space (chars s))).

(** [s.rstrip(".")] *)
Definition rstrip_dots (s : string) : string :=
  of_chars (rstrip_by (Ascii.eqb ".") (chars s)).

(** [s[:n]] *)
Definition take (n : nat) (s : string) : string :=
  of_chars (firstn n (chars s)).

(** Truth value of a string: [bool(s)]. *)
Definition truthy (s : string) : bool :=
  match s with EmptyString => false | _ => true end.

(** [a or b] on strings. *)
Definition or_else (a b : string) : string := if truthy a then a else b.

(** Truth value of an optional string ([None] and the empty string are
    false). *)
Definition opt_truthy (o : option string) : bool :=
  match o with Some s => truthy s | None => false end.

End Str.

(* ------------------------------------------------------------------ *)
(** ** Regular expressions (the fragment of [re] the script uses) *)

Module Re.

Inductive regex : Type :=
| Void : regex
| Eps : regex
| Class : (ascii -> bool) -> regex
| Cat : regex -> regex -> regex
| Alt : regex -> regex -> regex
| Star : regex -> regex.

Definition lit (c : ascii) : regex := Class (Ascii.eqb c).
(** [.] : any character but a newline. *)
Definition dot : regex := Class (fun c => negb (Ascii.eqb c (ascii_of_nat 10))).
(** [\d] *)
Definition digit : regex :=
  Class (fun c => let n := nat_of_ascii c in (Nat.leb 48 n && Nat.leb n 57)%bool).
(** [r+] *)
Definition plus (r : regex) : regex := Cat r (Star r).
(** [r{n}] *)
Fixpoint times (n : nat) (r : regex) : regex :=
  match n with
  | O => Eps
  | S k => Cat r (times k r)
  end.
Fixpoint seq (rs : list regex) : regex :=
  match rs with
  | [] => Eps
  | r :: rest => Cat r (seq rest)
  end.

Fixpoint nullable (r : regex) : bool :=
  match r with
  | Void => false
  | Eps => true
  | Class _ => false
  | Cat a b => (nullable a && nullable b)%bool
  | Alt a b => (nullable a || nullable b)%bool
  | Star _ => true
  end.

(** Brzozowski derivative of [r] by the character [c]. *)
Fixpoint deriv (c : ascii) (r : regex) : regex :=
  match r with
  | Void => Void
  | Eps => Void
  | Class p => if p c then Eps else Void
  | Cat a b =>
      if nullable a then Alt (Cat (deriv c a) b) (deriv c b)
      else Cat (deriv c a) b
  | Alt a b => Alt (deriv c a) (deriv c b)
  | Star a => Cat (deriv c a) (Star a)
  end.

(** [re.match(r, s)]: some prefix of [s] is in the language of [r]. *)
Fixpoint match_prefix (r : regex) (s : string) : bool :=
  (nullable r ||
   match s with
   | EmptyString => false
   | String c rest => match_prefix (deriv c r) rest
   end)%bool.

(** [re.search(r, s)] as a truth value: a match starts somewhere in [s]. *)
Fixpoint search (r : regex) (s : string) : bool :=
  (match_prefix r s ||
   match s with
   | EmptyString => false
   | String _ rest => search r rest
   end)%bool.

(** The words of a regular expression: the meaning that [match_prefix] and
    [search] decide. *)
Inductive matches : regex -> string -> Prop :=
| m_eps : matches Eps ""
| m_class p c : p c = true -> matches (Class p) (String c "")
| m_cat a b s1 s2 : matches a s1 -> matches b s2 -> matches (Cat a b) (s1 ++ s2)
| m_alt_l a b s : matches a s -> matches (Alt a b) s
| m_alt_r a b s : matches b s -> matches (Alt a b) s
| m_star_nil a : matches (Star a) ""
| m_star_app a s1 s2 :
    matches a s1 -> matches (Star a) s2 -> matches (Star a) (s1 ++ s2).

End Re.

(* ------------------------------------------------------------------ *)
(** ** utilitaires *)

(** The double quote, written by its code so that no literal needs one. *)
Definition dquote : ascii := ascii_of_nat 34.

(** [INVALID_FS]: the character class of backslash, slash, star, question
    mark, colon, double quote, angle brackets and vertical bar. *)
Definition INVALID_FS (c : ascii) : bool :=
  existsb (Ascii.eqb c) ["\"%char; "/"%char; "*"%char; "?"%char; ":"%char;
                         dquote; "<"%char; ">"%char; "|"%char].

(** [re.sub(INVALID_FS, "_", name)]: the class matches single characters,
    so every match is replaced in place. *)
Fixpoint re_sub_invalid (name : string) : string :=
  match name with
  | EmptyString => EmptyString
  | String c r => String (if INVALID_FS c then "_"%char else c) (re_sub_invalid r)
  end.

(** The value of [sanitize] before the [or "output"] fallback. *)
Definition sanitize_core (name : string) : string :=
  Str.take 100 (Str.rstrip_dots (Str.strip (re_sub_invalid name))).

Definition sanitize (name : string) : string :=
  Str.or_else (sanitize_core name) "output".

(* ------------------------------------------------------------------ *)
(** ** 1) Recherche & scoring *)

(** A flat entry of a yt-dlp result.  [e.get(k)] of an absent key and of a
    key bound to [None] are both [None]; [url] is always present in flat
    entries. *)
Record Entry : Type := mkEntry {
  e_type : option string;        (* "_type" *)
  e_title : option string;       (* "title" *)
  e_url : string;                (* "url" *)
  e_playlist_count : option Z;   (* "playlist_count" *)
  e_view_count : option Z;       (* "view_count" *)
  e_duration : option Z          (* "duration" *)
}.

Inductive Kind : Type := playlist | video.

(** [x or 0] on an optional integer. *)
Definition or0 (x : option Z) : Z :=
  match x with Some n => n | None => 0 end.

(** [(e.get("title") or "")] *)
Definition title_or_empty (t : option string) : string :=
  match t with Some s => s | None => "" end.

Definition opt_string_eqb (o : option string) (s : string) : bool :=
  match o with Some x => String.eqb x s | None => false end.

(** [r".+ - .+\(\d{4}\)"] *)
Definition struct_pattern : Re.regex :=
  Re.seq [Re.plus Re.dot; Re.lit " "; Re.lit "-"; Re.lit " "; Re.plus Re.dot;
          Re.lit "("; Re.times 4 Re.digit; Re.lit ")"].

Definition score_entry (entry : Entry) (boost_full : bool) : Z * Kind :=
  let title := Str.lower (title_or_empty (e_title entry)) in
  let bonus_struct := if Re.search struct_pattern title then 300 else 0 in
  let bonus_full :=
    if (boost_full && Str.contains "full album" title)%bool then 400
    else if Str.contains "full album" title then 100 else 0 in
  let bonus_off := if Str.contains "official" title then 50 else 0 in
  let malus :=
    if existsb (fun w => Str.contains w title) ["review"; "cover"]
    then -100 else 0 in
  if opt_string_eqb (e_type entry) "playlist" then
    (or0 (e_playlist_count entry) + bonus_struct + bonus_full + bonus_off + malus,
     playlist)
  else
    let views_pts := or0 (e_view_count entry) / 100000 in
    (views_pts + bonus_struct + bonus_full + bonus_off + malus, video).


(** Locator normalisation: an id that is not yet an absolute URL is turned
    into a playlist or a watch URL. *)
Definition normalize_url (kind : Kind) (url : string) : string :=
  if Str.startswith url "http" then url
  else match kind with
       | playlist => "https://www.youtube.com/playlist?list=" ++ url
       | video => "https://www.youtube.com/watch?v=" ++ url
       end.

(** One element of [cands]; the keys [metric] and [dur] only feed the
    verbose listing and are left out. *)
Record Cand : Type := mkCand {
  c_idx : nat;
  c_entry : Entry;
  c_score : Z;
  c_kind : Kind;
  c_url : string
}.

(** The filter and scoring loop over [enumerate(entries, idx)]. *)
Fixpoint collect (want_live boost_full : bool) (idx : nat)
  (entries : list (option Entry)) : list Cand :=
  match entries with
  | [] => []
  | None :: rest => collect want_live boost_full (S idx) rest
  | Some e :: rest =>
      let ttl := Str.lower (title_or_empty (e_title e)) in
      if (negb want_live && Str.contains "live" ttl)%bool
      then collect want_live boost_full (S idx) rest
      else
        let '(score, kind) := score_entry e boost_full in
        mkCand idx e score kind (normalize_url kind (e_url e))
          :: collect want_live boost_full (S idx) rest
  end.

(** Order of the sort key [(-c["score"], c["idx"])]. *)
Definition key_le (a b : Cand) : bool :=
  ((- c_score a <? - c_score b) ||
   ((- c_score a =? - c_score b) && Nat.leb (c_idx a) (c_idx b)))%bool.

Fixpoint insert_cand (c : Cand) (l : list Cand) : list Cand :=
  match l with
  | [] => [c]
  | x :: r => if key_le c x then c :: l else x :: insert_cand c r
  end.

(** [cands.sort(key=...)]: a stable sort; the keys are pairwise distinct. *)
Definition sort_cands (l : list Cand) : list Cand :=
  fold_right insert_cand [] l.

(** [cands] of one query variant, after the sort. *)
Definition candidates (want_live boost_full : bool)
  (entries : list (option Entry)) : list Cand :=
  sort_cands (collect want_live boost_full 1 entries).

(** Does the lower-cased title of a record mention "live"? *)
Definition has_live (e : Entry) : bool :=
  Str.contains "live" (Str.lower (title_or_empty (e_title e))).

(** The candidate built from the record [e] found at position [idx]. *)
Definition cand_of (bf : bool) (idx : nat) (e : Entry) : Cand :=
  mkCand idx e (fst (score_entry e bf)) (snd (score_entry e bf))
         (normalize_url (snd (score_entry e bf)) (e_url e)).

Definition want_live_of (term : string) : bool :=
  Str.contains "live" (Str.lower term).
Definition boost_full_of (term : string) : bool :=
  Str.contains "full album" (Str.lower term).

(** [queries] *)
Definition queries_of (term : string) : list string :=
  if boost_full_of term then ["ytsearch20:" ++ term]
  else ["ytsearch20:" ++ term; "ytsearch20:" ++ term ++ " full album"].

(* ------------------------------------------------------------------ *)
(** ** Exceptions, results and the outside world *)

(** Instances of [Exception] that the script can meet. *)
Inductive exc : Type :=
| DownloadError (msg : string)
| AttributeError (msg : string)
| Exception (msg : string)
| OtherError (cls msg : string).

Definition is_DownloadError (e : exc) : bool :=
  match e with DownloadError _ => true | _ => false end.

(** [str(e)] *)
Definition str_exc (e : exc) : string :=
  match e with
  | DownloadError m | AttributeError m | Exception m | OtherError _ m => m
  end.

(** A top-level info dictionary; [i_entries = None] is an absent key. *)
Record Info : Type := mkInfo {
  i_type : option string;
  i_title : option string;
  i_entries : option (list (option Entry))
}.

(** The options [build_ydl_opts] hands to the fetcher. *)
Record YdlOpts : Type := mkOpts {
  o_outtmpl : string;
  o_format : string;
  o_postprocessors : list string;
  o_writethumbnail : bool;
  o_merge_output_format : option string;
  o_quiet : bool;
  o_no_warnings : bool;
  o_ignoreerrors : bool;
  o_socket_timeout : Z
}.

(** The parsed command line. *)
Record Args : Type := mkArgs {
  a_inputs : list string;
  a_search : option string;
  a_format : string;
  a_output : option string;
  a_thumbnail : bool;
  a_verbose : bool;
  a_help : bool
}.

(** A task [(kind, val)], [kind] being "search" or "url". *)
Definition Task : Type := (string * string)%type.

(** What a run does to the outside, in order. *)
Inductive event : Type :=
| EvSearch (query : string)
| EvExtract (url : string)
| EvMakedirs (dir : string)
| EvDownload (opts : YdlOpts) (url : string) (outcome : option exc)
| EvFailReport (fails : list (string * string))
| EvTaskError (val : string) (e : exc).

(** The collaborators: yt-dlp's [extract_info] (flat or in-playlist mode)
    and [download], [os.makedirs], [os.path.isfile] and the lines of a text
    file, and the number of polls after which a search worker has put its
    outcome on the queue. *)
Record World (W : Type) : Type := mkWorld {
  extract_info : bool -> string -> W -> (exc + option Info) * W;
  put_delay : string -> W -> nat;
  makedirs : string -> W -> option exc * W;
  download : YdlOpts -> string -> W -> option exc * W;
  isfile : string -> W -> bool;
  read_lines : string -> W -> exc + list string
}.
Arguments extract_info {W}.
Arguments put_delay {W}.
Arguments makedirs {W}.
Arguments download {W}.
Arguments isfile {W}.
Arguments read_lines {W}.

(** Result of a computation: a value, an exception, or a wait that has not
    ended when the fuel of the polling loop is used up. *)
Inductive res (A : Type) : Type :=
| Ret (a : A)
| Raise (e : exc)
| Spin.
Arguments Ret {A}.
Arguments Raise {A}.
Arguments Spin {A}.

(** The spinner object: [tqdm(total=..., bar_format="{desc}")]. *)
Record tqdm : Type := mk_tqdm { total : Z; desc : string }.
Definition tqdm_new (t : Z) : tqdm := mk_tqdm t "".
Definition set_description (spin : tqdm) (d : string) : tqdm :=
  mk_tqdm (total spin) d.

Definition frames : list ascii := ["|"; "/"; "-"; "\"]%char.

(** The polling loop of [search_best]:
    [while spin.total == 0 or not q.qsize(): ...; k += 1; sleep(0.2)].
    [qsize k] is the size of the queue seen by the test number [k]; the
    result is the spinner and [k] at the exit, or [None] when the loop is
    still running after [fuel] tests. *)
Fixpoint poll (fuel : nat) (qsize : nat -> nat) (spin : tqdm) (k : nat)
  : option (tqdm * nat) :=
  match fuel with
  | O => None
  | S f =>
      if ((total spin =? 0) || Nat.eqb (qsize k) 0)%bool
      then poll f qsize
             (set_description spin
                ("Recherche YouTube " ++ String (nth (Nat.modulo k 4) frames " "%char) ""))
             (S k)
      else Some (spin, k)
  end.

(** Does a waiting loop end, given the queue sizes it will see? *)
Definition waiter : Type := (nat -> nat) -> bool.

(** The wait of the script: a fresh [tqdm(total=0)] and [k = 0]. *)
Definition poll_wait (fuel : nat) : waiter :=
  fun qsize =>
    match poll fuel qsize (tqdm_new 0) 0 with Some _ => true | None => false end.

(** Queue size over time when the worker puts one outcome after [d] polls. *)
Definition qsize_after (d : nat) : nat -> nat :=
  fun k => if Nat.leb d k then 1%nat else 0%nat.

(* ------------------------------------------------------------------ *)
(** ** The pipeline over a world *)

Section Pipeline.

Context {W : Type} (world : World W).

(** Computations: read and change the world, emit events, and end in a
    value, an exception or a wait without end. *)
Definition M (A : Type) : Type := W -> res A * list event * W.

Definition ret {A} (a : A) : M A := fun w => (Ret a, [], w).
Definition raise {A} (e : exc) : M A := fun w => (Raise e, [], w).
Definition emit (ev : event) : M unit := fun w => (Ret tt, [ev], w).

Definition bind {A B} (m : M A) (f : A -> M B) : M B :=
  fun w =>
    match m w with
    | (Ret a, t1, w1) =>
        let '(r, t2, w2) := f a w1 in (r, (t1 ++ t2)%list, w2)
    | (Raise e, t1, w1) => (Raise e, t1, w1)
    | (Spin, t1, w1) => (Spin, t1, w1)
    end.

Notation "x <- m ;; f" := (bind m (fun x => f))
  (at level 100, m at next level, right associativity).
Notation "m ;;; f" := (bind m (fun _ => f))
  (at level 100, right associativity).

(** [try: m  except Exception as e: h e] *)
Definition try_except {A} (m : M A) (h : exc -> M A) : M A :=
  fun w =>
    match m w with
    | (Raise e, t1, w1) =>
        let '(r, t2, w2) := h e w1 in (r, (t1 ++ t2)%list, w2)
    | other => other
    end.

(** *** Search *)

(** What [_search_worker] puts on the queue. *)
Inductive outcome : Type :=
| ok (data : option Info)
| err (e : exc).

(** The worker: [extract_info] in flat mode, its exception turned into an
    ("err", exc) message. *)
Definition _search_worker (query : string) : W -> outcome * W :=
  fun w =>
    match extract_info world true query w with
    | (inr data, w1) => (ok data, w1)
    | (inl e, w1) => (err e, w1)
    end.

(** [data.get("entries") or []] *)
Definition entries_or_nil (data : Info) : list (option Entry) :=
  match i_entries data with Some l => l | None => [] end.

Section Session.

(** The waiting loop; [poll_wait fuel] in the script. *)
Variable wait : waiter.

(** The loop [for qi, qstr in enumerate(queries, 1)] of [search_best];
    the value is [cands[0]] of the first variant that has candidates.  The
    call of the worker thread is placed where the thread is started; its
    outcome reaches the queue [put_delay] polls later and is read by
    [q.get()] after the waiting loop. *)
Fixpoint search_variants (want_live boost_full : bool) (queries : list string)
  : M (option Cand) :=
  match queries with
  | [] => ret None
  | qstr :: rest =>
      emit (EvSearch qstr) ;;;
      fun w =>
        let '(queued, w1) := _search_worker qstr w in
        if wait (qsize_after (put_delay world qstr w))
        then
          match queued with
          | err _ => search_variants want_live boost_full rest w1
          | ok None => (Raise (AttributeError "'NoneType' object has no attribute 'get'"), [], w1)
          | ok (Some data) =>
              match candidates want_live boost_full (entries_or_nil data) with
              | best :: _ => (Ret (Some best), [], w1)
              | [] => search_variants want_live boost_full rest w1
              end
          end
        else (Spin, [], w1)
  end.

Definition search_best (term : string) (verbose : bool) : M string :=
  let want_live := want_live_of term in
  let boost_full := boost_full_of term in
  best <- search_variants want_live boost_full (queries_of term) ;;
  match best with
  | None => raise (Exception ("Aucun résultat pertinent pour « " ++ term ++ " »."))
  | Some c => ret (normalize_url (c_kind c) (e_url (c_entry c)))
  end.

End Session.

(** *** 2) Extraction infos *)

Definition get_video_list (url : string) : M (list string * bool * string) :=
  emit (EvExtract url) ;;;
  fun w =>
    match extract_info world false url w with
    | (inl e, w1) => (Raise e, [], w1)
    | (inr None, w1) =>
        (Raise (AttributeError "'NoneType' object has no attribute 'get'"), [], w1)
    | (inr (Some info), w1) =>
        if opt_string_eqb (i_type info) "playlist" then
          let urls :=
            flat_map
              (fun oe =>
                 match oe with
                 | None => []
                 | Some e =>
                     [if Str.startswith (e_url e) "http" then e_url e
                      else "https://www.youtube.com/watch?v=" ++ e_url e]
                 end)
              (match i_entries info with Some l => l | None => [] end) in
          (Ret (urls, true, Str.or_else (title_or_empty (i_title info)) "playlist"),
           [], w1)
        else
          (Ret ([url], false, Str.or_else (title_or_empty (i_title info)) "video"),
           [], w1)
    end.

(** *** 3) Options yt-dlp *)

(** The options of a fetch: the keys that depend on the arguments and the
    constant ones ([quiet], [no_warnings], [ignoreerrors], [socket_timeout]);
    the progress hook, which [download_list] sets, is left out. *)
Definition build_ydl_opts (fmt outtmpl_ : string) (embed_thumb : bool) : YdlOpts :=
  if String.eqb fmt "mp3" then
    mkOpts outtmpl_ "bestaudio/best"
           (["FFmpegExtractAudio"; "FFmpegMetadata"]
              ++ (if embed_thumb then ["EmbedThumbnail"] else []))%list
           embed_thumb None
           true true true 10
  else
    mkOpts outtmpl_ "bestvideo+bestaudio/best"
           (if embed_thumb then ["EmbedThumbnail"] else [])
           embed_thumb (Some "mp4")
           true true true 10.

(** [f"{i:03d}"] *)
Definition fmt_03d (i : nat) : string :=
  let d := NilEmpty.string_of_uint (Nat.to_uint i) in
  Str.of_chars (repeat "0"%char (3 - String.length d)) ++ d.

(** [os.path.join(a, b)] for a relative [b]. *)
Definition path_join (a b : string) : string :=
  match rev (Str.chars a) with
  | [] => b
  | c :: _ => if Ascii.eqb c "/" then a ++ b else a ++ "/" ++ b
  end.

Definition name_tmpl (is_playlist : bool) (i : nat) : string :=
  if negb is_playlist then "%(title)s.%(ext)s"
  else fmt_03d i ++ " - %(title)s.%(ext)s".

(** The loop [for i, url in enumerate(urls, i)] of [download_list], with
    the list [fails] built so far. *)
Fixpoint download_loop (fmt outdir : string) (is_playlist embed_thumb : bool)
  (i : nat) (urls : list string) (fails : list (string * string))
  : M (list (string * string)) :=
  match urls with
  | [] => ret fails
  | url :: rest =>
      let opts :=
        build_ydl_opts fmt (path_join outdir (name_tmpl is_playlist i)) embed_thumb in
      fun w =>
        let '(o, w1) := download world opts url w in
        let '(r, t, w2) :=
          match o with
          | None =>
              download_loop fmt outdir is_playlist embed_thumb (S i) rest fails w1
          | Some e =>
              if is_DownloadError e
              then download_loop fmt outdir is_playlist embed_thumb (S i) rest
                     (fails ++ [(url, str_exc e)])%list w1
              else (Raise e, [], w1)
          end in
        (r, EvDownload opts url o :: t, w2)
  end.

Definition download_list (urls : list string) (fmt outdir : string)
  (is_playlist verbose embed_thumb : bool) : M unit :=
  emit (EvMakedirs outdir) ;;;
  (fun w => match makedirs world outdir w with
            | (Some e, w1) => (Raise e, [], w1)
            | (None, w1) => (Ret tt, [], w1)
            end) ;;;
  fails <- download_loop fmt outdir is_playlist embed_thumb 1 urls [] ;;
  match fails with
  | [] => ret tt
  | _ => emit (EvFailReport fails)
  end.

(** *** 4) CLI principal *)

Definition classify (l : string) : Task :=
  (if negb (Str.startswith l "http") then "search" else "url", l).

(** The tasks of the lines of one input file. *)
Definition tasks_of_lines (lines : list string) : list Task :=
  flat_map
    (fun l => let l := Str.strip l in
              if negb (Str.truthy l) then [] else [classify l])
    lines.

(** The loop [for inp in args.inputs] of [gather_tasks]. *)
Fixpoint gather_inputs (inputs : list string) (tasks : list Task)
  : M (list Task) :=
  match inputs with
  | [] => ret tasks
  | inp :: rest =>
      fun w =>
        if isfile world inp w then
          match read_lines world inp w with
          | inl e => (Raise e, [], w)
          | inr lines => gather_inputs rest (tasks ++ tasks_of_lines lines)%list w
          end
        else gather_inputs rest (tasks ++ [classify inp])%list w
  end.

Definition gather_tasks (args : Args) : M (list Task) :=
  tasks <- gather_inputs (a_inputs args) [] ;;
  match a_search args with
  | Some s => if Str.truthy s then ret (tasks ++ [("search", s)])%list else ret tasks
  | None => ret tasks
  end.

Section Run.

Variable wait : waiter.

(** The body of the [try] of [cli] for one task. *)
Definition run_task (args : Args) (task : Task) : M unit :=
  let '(kind, val) := task in
  url <- (if String.eqb kind "search"
          then search_best wait val (a_verbose args)
          else ret val) ;;
  r <- get_video_list url ;;
  let '(urls, is_pl, title) := r in
  let outdir :=
    if Str.opt_truthy (a_output args) then title_or_empty (a_output args)
    else if is_pl then sanitize title else "downloads" in
  download_list urls (a_format args) outdir is_pl (a_verbose args)
    (a_thumbnail args).

(** The loop [for kind, val in tasks] with its [except Exception]. *)
Fixpoint run_tasks (args : Args) (tasks : list Task) : M unit :=
  match tasks with
  | [] => ret tt
  | task :: rest =>
      try_except (run_task args task)
        (fun e => emit (EvTaskError (snd task) e)) ;;;
      run_tasks args rest
  end.

(** [cli()]; the value is the argument of [sys.exit], 0 when the function
    returns. *)
Definition cli (args : Args) : M Z :=
  if (a_help args ||
      (match a_inputs args with [] => true | _ => false end
       && negb (Str.opt_truthy (a_search args))))%bool
  then ret 0
  else
    tasks <- gather_tasks args ;;
    match tasks with
    | [] => ret 1
    | _ => run_tasks args tasks ;;; ret 0
    end.

End Run.

End Pipeline.

(** Exit status of the process for a result of [cli]: an exception that
    nobody catches ends the interpreter with status 1; a wait without end
    gives no status. *)
Definition exit_status (r : res Z) : option Z :=
  match r with
  | Ret c => Some c
  | Raise _ => Some 1
  | Spin => None
  end.

(** Projections of a trace. *)
Definition search_calls (t : list event) : list string :=
  flat_map (fun ev => match ev with EvSearch q => [q] | _ => [] end) t.
Definition attempted (t : list event) : list string :=
  flat_map (fun ev => match ev with EvDownload _ u _ => [u] | _ => [] end) t.
Definition extract_calls (t : list event) : list string :=
  flat_map (fun ev => match ev with EvExtract u => [u] | _ => [] end) t.
Definition task_errors (t : list event) : list (string * exc) :=
  flat_map (fun ev => match ev with EvTaskError v e => [(v, e)] | _ => [] end) t.
(** The fetches of a run, each with what it raised. *)
Definition fetch_outcomes (t : list event) : list (string * option exc) :=
  flat_map (fun ev => match ev with EvDownload _ u o => [(u, o)] | _ => [] end) t.
(** The fetches that raised [DownloadError], with [str(e)]. *)
Definition failures_of (t : list event) : list (string * string) :=
  flat_map (fun ev => match ev with
                      | EvDownload _ u (Some (DownloadError m)) => [(u, m)]
                      | _ => []
                      end) t.
(** The failure lists that were reported. *)
Definition reported (t : list event) : list (list (string * string)) :=
  flat_map (fun ev => match ev with EvFailReport f => [f] | _ => [] end) t.
(** A fetch that raised something else than [DownloadError]. *)
Definition fetch_raised_other (ev : event) : bool :=
  match ev with
  | EvDownload _ _ (Some e) => negb (is_DownloadError e)
  | _ => false
  end.

(* ------------------------------------------------------------------ *)
(** ** Test doubles and the scenario of the specification *)

(** A world without state: each collaborator answers from its arguments. *)
Definition stub_world
  (info : bool -> string -> exc + option Info)
  (delay : string -> nat)
  (mk : string -> option exc)
  (dl : YdlOpts -> string -> option exc)
  (files : string -> option (exc + list string)) : World unit :=
  mkWorld unit
    (fun flat q w => (info flat q, w))
    (fun q _ => delay q)
    (fun d w => (mk d, w))
    (fun o u w => (dl o u, w))
    (fun p _ => match files p with Some _ => true | None => false end)
    (fun p _ => match files p with Some r => r | None => inr [] end).

(** A wait that ends whatever the queue does. *)
Definition wait_done : waiter := fun _ => true.

Definition scenario_term : string := "Band - Album (1999) full album".

Definition ex_collection (u : string) : Entry :=
  mkEntry (Some "playlist") (Some "Band - Album (1999) Full Album [Official]")
          u (Some 12) None None.

Definition ex_item (u : string) : Entry :=
  mkEntry (Some "url") (Some "Band - Album (1999) Full Album (review)")
          u None (Some 2000000) None.

(** The two records of the scenario, in either order. *)
Definition scenario_entries (swap : bool) (u1 u2 : string) : list (option Entry) :=
  if swap then [Some (ex_item u2); Some (ex_collection u1)]
  else [Some (ex_collection u1); Some (ex_item u2)].

Definition scenario_world (swap : bool) : World unit :=
  stub_world
    (fun _ _ => inr (Some (mkInfo (Some "playlist") (Some scenario_term)
                             (Some (scenario_entries swap "PLabc" "vid42")))))
    (fun _ => 3%nat) (fun _ => None) (fun _ _ => None) (fun _ => None).

(** Line feed. *)
Definition nl : string := String (ascii_of_nat 10) "".

(** Five items of which the third cannot be fetched. *)
Definition five_items : list string :=
  ["https://youtu.be/item1"; "https://youtu.be/item2"; "https://youtu.be/item3";
   "https://youtu.be/item4"; "https://youtu.be/item5"].

Definition fetch_world (bad : string) (e : exc) : World unit :=
  stub_world (fun _ _ => inr None) (fun _ => 0%nat) (fun _ => None)
    (fun _ u => if String.eqb u bad then Some e else None)
    (fun _ => None).

(** A provider whose collections have no member that can be resolved. *)
Definition empty_collection_world : World unit :=
  stub_world
    (fun _ url =>
       if String.eqb url "https://www.youtube.com/playlist?list=PLempty"
       then inr (Some (mkInfo (Some "playlist") (Some "Empty") (Some [])))
       else inr (Some (mkInfo (Some "playlist") (Some "Gone") (Some [None; None]))))
    (fun _ => 0%nat) (fun _ => None) (fun _ _ => None) (fun _ => None).

(** A file system with one list file, which starts with a comment line. *)
Definition list_file : list string :=
  ["# favourites" ++ nl; nl; "https://youtu.be/abc" ++ nl; "  Band - Album  " ++ nl].

Definition file_world : World unit :=
  stub_world (fun _ _ => inr None) (fun _ => 0%nat) (fun _ => None) (fun _ _ => None)
    (fun p => if String.eqb p "list.txt" then Some (inr list_file) else None).

Definition file_args : Args :=
  mkArgs ["list.txt"] None "mp4" None false false false.

(** A provider that answers the first variant of "abba" with one plain
    record and the second variant with a record that would score higher. *)
Definition two_variant_world : World unit :=
  stub_world
    (fun _ q =>
       if String.eqb q "ytsearch20:abba"
       then inr (Some (mkInfo (Some "playlist") (Some "abba")
                         (Some [Some (mkEntry (Some "url") (Some "Abba hits") "v1"
                                        None (Some 1000) None)])))
       else inr (Some (mkInfo (Some "playlist") (Some "abba full album")
                         (Some [Some (mkEntry (Some "url") (Some "Abba Full Album") "v2"
                                        None (Some 900000000) None)]))))
    (fun _ => 2%nat) (fun _ => None) (fun _ _ => None) (fun _ => None).

(** Two records, the first of a live performance with many views. *)
Definition live_entries : list (option Entry) :=
  [Some (mkEntry (Some "url") (Some "Band - Album (1999) LIVE at Wembley") "v7"
           None (Some 900000000) None);
   Some (mkEntry (Some "url") (Some "Band - Album") "v8" None (Some 10) None)].

(** A provider that fails to resolve one locator and resolves every other
    one to a single video; every fetch succeeds. *)
Definition one_bad_world : World unit :=
  stub_world
    (fun _ url =>
       if String.eqb url "https://youtu.be/bad"
       then inl (OtherError "ExtractorError" "Video unavailable")
       else inr (Some (mkInfo (Some "video") (Some "Good") None)))
    (fun _ => 0%nat) (fun _ => None) (fun _ _ => None) (fun _ => None).

(** The same two locators with a fetcher that keeps to [ignoreerrors]: for
    the locator that is not available [extract_info] reports the error and
    answers [None]. *)
Definition unavailable_world : World unit :=
  stub_world
    (fun _ url =>
       if String.eqb url "https://youtu.be/bad"
       then inr None
       else inr (Some (mkInfo (Some "video") (Some "Good") None)))
    (fun _ => 0%nat) (fun _ => None) (fun _ _ => None) (fun _ => None).

Definition one_bad_args : Args :=
  mkArgs ["https://youtu.be/bad"; "https://youtu.be/good"] None "mp3" None
         false false false.


(* ------------------------------------------------------------------ *)
(** ** Further projections of a trace *)

(** The directories handed to [os.makedirs]. *)
Definition makedirs_calls (t : list event) : list string :=
  flat_map (fun ev => match ev with EvMakedirs d => [d] | _ => [] end) t.

(** The fetches with the options they were given. *)
Definition fetch_opts (t : list event) : list (YdlOpts * string) :=
  flat_map (fun ev => match ev with EvDownload o u _ => [(o, u)] | _ => [] end) t.

(** [l] starts with [pre]. *)
Definition is_prefix {A} (pre l : list A) : Prop := exists suf, l = (pre ++ suf)%list.

From Stdlib Require Import Sorted Permutation.

(** [a] comes before [b] in the ranking: a higher score, or the same score
    and an earlier position. *)
Definition ranked_before (a b : Cand) : Prop :=
  c_score b < c_score a \/ (c_score a = c_score b /\ (c_idx a < c_idx b)%nat).

(** A record that is present and passes the live filter. *)
Definition eligible (want_live : bool) (oe : option Entry) : bool :=
  match oe with
  | Some e => negb (negb want_live && has_live e)
  | None => false
  end.

(** The members of a collection that the provider could resolve. *)
Definition members (info : Info) : list Entry :=
  flat_map (fun oe => match oe with Some e => [e] | None => [] end)
    (match i_entries info with Some l => l | None => [] end).

(** A provider that resolves one playlist with an unresolvable member. *)
Definition playlist_world : World unit :=
  stub_world
    (fun _ _ =>
       inr (Some (mkInfo (Some "playlist") (Some "Best of")
                    (Some [Some (mkEntry (Some "url") (Some "One") "id1" None None None);
                           None;
                           Some (mkEntry (Some "url") (Some "Two")
                                   "https://youtu.be/id2" None None None)]))))
    (fun _ => 0%nat) (fun _ => None) (fun _ _ => None) (fun _ => None).

From Stdlib Require Import DecimalNat.

(** Reading a decimal ordinal back. *)
Definition read_ordinal (s : string) : option nat :=
  option_map Nat.of_uint (NilEmpty.uint_of_string s).

(** The tasks that one positional input stands for: the lines of a file, or
    the input itself. *)
Definition tasks_of_input {W : Type} (world : World W) (w : W) (inp : string)
  : list Task :=
  if isfile world inp w then
    match read_lines world inp w with
    | inr lines => tasks_of_lines lines
    | inl _ => []
    end
  else [classify inp].

(** What the events of a run of [cli] may be: the expander is only given
    absolute URLs, and a directory that is created is the one of [--output]
    or, without it, "downloads" or a sanitized title. *)
Definition good_event (args : Args) (ev : event) : Prop :=
  match ev with
  | EvExtract u => Str.startswith u "http" = true
  | EvMakedirs d =>
      d <> "" /\
      (if Str.opt_truthy (a_output args) then Some d = a_output args
       else d = "downloads" \/ exists title, d = sanitize title)
  | _ => True
  end.

(** A task as [gather_tasks] builds them. *)
Definition good_task (task : Task) : Prop :=
  (fst task = "url" /\ Str.startswith (snd task) "http" = true) \/ fst task = "search".

(** A file system with a list file that cannot be read. *)
Definition unreadable_world : World unit :=
  stub_world (fun _ _ => inr None) (fun _ => 0%nat) (fun _ => None) (fun _ _ => None)
    (fun p => if String.eqb p "list.txt"
              then Some (inl (OtherError "PermissionError" "Permission denied"))
              else None).

(** A file system with a list file of blank lines. *)
Definition blank_world : World unit :=
  stub_world (fun _ _ => inr None) (fun _ => 0%nat) (fun _ => None) (fun _ _ => None)
    (fun p => if String.eqb p "list.txt" then Some (inr [nl; "   " ++ nl]) else None).

Definition mixed_args : Args :=
  mkArgs ["https://youtu.be/x"; "list.txt"; "Some Band"] (Some "https://youtu.be/s")
         "mp4" None false false false.

(** The events of a search session and those of the orchestrator. *)
Definition is_search_event (ev : event) : Prop := exists q, ev = EvSearch q.

Definition is_fetch_event (outdir : string) (ev : event) : Prop :=
  ev = EvMakedirs outdir \/ (exists o u x, ev = EvDownload o u x)
  \/ (exists f, ev = EvFailReport f).

Definition search_then_url_args : Args :=
  mkArgs ["https://youtu.be/good"; "abba"; "https://youtu.be/later"] None "mp3" None
         false false false.

(* ------------------------------------------------------------------ *)
(** ** The option [ignoreerrors] of the fetcher *)

(** A fetcher keeps to the option [ignoreerrors] when, with the option set,
    it reports a fetch that failed and returns, instead of raising
    [DownloadError]. *)
Definition honours_ignoreerrors {W : Type} (world : World W) : Prop :=
  forall (opts : YdlOpts) (u : string) (w : W) (e : exc),
    o_ignoreerrors opts = true ->
    fst (download world opts u w) = Some e ->
    is_DownloadError e = false.

(** A fetch of the loop was made with [ignoreerrors] set, and its outcome is
    what the fetcher answered for these options and this locator. *)
Definition fetch_answer {W : Type} (world : World W) (ev : event) : Prop :=
  match ev with
  | EvDownload opts u o =>
      o_ignoreerrors opts = true /\ exists w, o = fst (download world opts u w)
  | _ => True
  end.

(** A fetcher that cannot fetch the locators for which [broken] gives a
    reason: it raises [DownloadError] with this reason, unless the options
    say [ignoreerrors]. *)
Definition ydl_world (broken : string -> option string) : World unit :=
  stub_world (fun _ _ => inr None) (fun _ => 0%nat) (fun _ => None)
    (fun opts u =>
       match broken u with
       | Some reason =>
           if o_ignoreerrors opts then None else Some (DownloadError reason)
       | None => None
       end)
    (fun _ => None).

(** The third of the five items cannot be fetched. *)
Definition item3_blocked (u : string) : option string :=
  if String.eqb u "https://youtu.be/item3" then Some "geo-blocked" else None.

(* ------------------------------------------------------------------ *)
(** ** The task loop, task by task *)

(** One entry for each task that [cli] starts: the task, how the body of
    its [try] ended and what it did. The task after one that returned or
    raised starts from the state this one left; nothing starts after a task
    that is still waiting. *)
Fixpoint task_log {W : Type} (world : World W) (wait : waiter) (args : Args)
  (tasks : list Task) (w : W) : list (Task * res unit * list event) :=
  match tasks with
  | [] => []
  | task :: rest =>
      let '(r, t, w1) := run_task world wait args task w in
      (task, r, t) ::
      match r with
      | Spin => []
      | _ => task_log world wait args rest w1
      end
  end.

(** What one task leaves in the trace of the run: what its body did, then
    the error line when it raised. *)
Definition task_trace (entry : Task * res unit * list event) : list event :=
  let '(task, r, t) := entry in
  match r with
  | Raise e => (t ++ [EvTaskError (snd task) e])%list
  | _ => t
  end.

(** The task with its exception, when it raised. *)
Definition task_failure (entry : Task * res unit * list event)
  : list (string * exc) :=
  let '(task, r, _) := entry in
  match r with
  | Raise e => [(snd task, e)]
  | _ => []
  end.

Definition task_hangs (entry : Task * res unit * list event) : bool :=
  let '(_, r, _) := entry in
  match r with
  | Spin => true
  | _ => false
  end.

(* ------------------------------------------------------------------ *)
(** ** barre individuelle *)

Module Progress.

(** The dictionary that the fetcher hands to a progress hook; an absent
    key is [None]. *)
Record Tick : Type := mkTick {
  status : string;
  total_bytes : option Z;
  total_bytes_estimate : option Z;
  downloaded_bytes : option Z;
  filename : option string
}.

(** The fields of a [tqdm] bar that the hook sets. *)
Record Bar : Type := mkBar { b_total : Z; b_n : Z; b_desc : string }.

(** What is drawn: a bar when it is built, refreshed and closed. *)
Inductive shown : Type :=
| Opened (b : Bar)
| Refreshed (b : Bar)
| Closed (b : Bar).

(** [bool(self.bar)]: [None] is false, and a [tqdm] bar is true when its
    total is positive. *)
Definition bar_truthy (bar : option Bar) : bool :=
  match bar with
  | Some b => 0 <? b_total b
  | None => false
  end.

(** [x or y] on an optional integer. *)
Definition or_int (x : option Z) (y : Z) : Z :=
  match x with
  | Some v => if v =? 0 then y else v
  | None => y
  end.

(** [tot] of a tick. *)
Definition tick_total (d : Tick) : Z :=
  or_int (total_bytes d) (or_int (total_bytes_estimate d) 0).

(** [ProgressBar.hook]: the new value of [self.bar] and what is drawn. *)
Definition hook (self : option Bar) (d : Tick) : option Bar * list shown :=
  if String.eqb (status d) "downloading" then
    let tot := tick_total d in
    let done := match downloaded_bytes d with Some n => n | None => 0 end in
    let '(bar, out) :=
      if (negb (bar_truthy self) && negb (tot =? 0))%bool
      then
        let b := mkBar tot 0
                   (match filename d with Some f => f | None => "Téléchargement" end) in
        (Some b, [Opened b])
      else (self, []) in
    match bar with
    | Some b =>
        if 0 <? b_total b
        then let b' := mkBar (b_total b) done (b_desc b) in
             (Some b', (out ++ [Refreshed b'])%list)
        else (bar, out)
    | None => (bar, out)
    end
  else if (String.eqb (status d) "finished" && bar_truthy self)%bool then
    match self with
    | Some b => (None, [Closed (mkBar (b_total b) (b_total b) (b_desc b))])
    | None => (self, [])
    end
  else (self, []).

(** The hook called on a sequence of ticks. *)
Fixpoint feed (self : option Bar) (ticks : list Tick) : option Bar * list shown :=
  match ticks with
  | [] => (self, [])
  | d :: rest =>
      let '(s1, o1) := hook self d in
      let '(s2, o2) := feed s1 rest in
      (s2, (o1 ++ o2)%list)
  end.

(** The protocol of the display, [cur] being the total of the bar that is
    open: a bar is opened, at 0, only when none is open; it is refreshed
    and closed with the total it was opened with; it is closed full; and
    nothing is drawn between a close and the next opening. *)
Fixpoint protocol (cur : option Z) (out : list shown) : Prop :=
  match out with
  | [] => True
  | Opened b :: rest =>
      cur = None /\ b_n b = 0 /\ 0 < b_total b /\ protocol (Some (b_total b)) rest
  | Refreshed b :: rest => cur = Some (b_total b) /\ protocol cur rest
  | Closed b :: rest =>
      cur = Some (b_total b) /\ b_n b = b_total b /\ protocol None rest
  end.

(** Ticks of a download of 300 bytes whose size is announced late and then
    revised. *)
Definition sample_ticks : list Tick :=
  [mkTick "downloading" None None (Some 10) (Some "a.mp3");
   mkTick "downloading" (Some 300) None (Some 120) (Some "a.mp3");
   mkTick "downloading" (Some 280) None (Some 200) (Some "a.mp3");
   mkTick "finished" None None None (Some "a.mp3")].

End Progress.

(* ================================================================== *)
(** * Properties *)

(** ** The matcher decides the words of an expression *)

Module ReFacts.
Import Re.

Lemma append_eq_nil (a b : string) : a ++ b = "" -> a = "" /\ b = "".
Proof. destruct a; cbn; [auto | discriminate]. Qed.

Lemma cat_inv (a b : regex) (s : string) :
  matches (Cat a b) s ->
  exists s1 s2, s = s1 ++ s2 /\ matches a s1 /\ matches b s2.
Proof. intros H. inversion H; subst. do 2 eexists. repeat split; eassumption. Qed.

Lemma alt_inv (a b : regex) (s : string) :
  matches (Alt a b) s -> matches a s \/ matches b s.
Proof. intros H. inversion H; subst; auto. Qed.

Lemma class_inv (p : ascii -> bool) (s : string) :
  matches (Class p) s -> exists c, s = String c "" /\ p c = true.
Proof. intros H. inversion H; subst. eauto. Qed.

Lemma eps_inv (s : string) : matches Eps s -> s = "".
Proof. intros H. inversion H. reflexivity. Qed.

Lemma void_inv (s : string) : ~ matches Void s.
Proof. intros H. inversion H. Qed.

Lemma nullable_matches (r : regex) : nullable r = true <-> matches r "".
Proof.
  induction r as [| | p | a IHa b IHb | a IHa b IHb | a IHa]; cbn.
  - split; [discriminate | intros H; destruct (void_inv _ H)].
  - split; [constructor | reflexivity].
  - split; [discriminate |]. intros H. apply class_inv in H as (c & Hc & _).
    discriminate.
  - rewrite andb_true_iff, IHa, IHb. split.
    + intros [Ha Hb]. change "" with ("" ++ ""). now constructor.
    + intros H. apply cat_inv in H as (s1 & s2 & Heq & H1 & H2).
      symmetry in Heq. apply append_eq_nil in Heq as [-> ->]. auto.
  - rewrite orb_true_iff, IHa, IHb. split.
    + intros [H | H]; [now apply m_alt_l | now apply m_alt_r].
    + apply alt_inv.
  - split; [constructor | reflexivity].
Qed.

Lemma star_cons_inv (a : regex) (s : string) :
  matches (Star a) s ->
  forall c rest, s = String c rest ->
  exists s1 s2, rest = s1 ++ s2 /\ matches a (String c s1) /\ matches (Star a) s2.
Proof.
  intros H. remember (Star a) as r eqn:Hr.
  induction H as [| | | | | a' | a' s1 s2 H1 _ H2 IH2]; try discriminate Hr.
  - intros c rest Heq. discriminate Heq.
  - injection Hr as ->. intros c rest Heq.
    destruct s1 as [| c1 s1]; cbn in Heq.
    + apply (IH2 eq_refl c rest Heq).
    + injection Heq as -> <-. exists s1, s2. auto.
Qed.

Lemma deriv_matches (r : regex) :
  forall c s, matches (deriv c r) s <-> matches r (String c s).
Proof.
  induction r as [| | p | a IHa b IHb | a IHa b IHb | a IHa]; intros c s; cbn.
  - split; intros H; destruct (void_inv _ H).
  - split; intros H; [destruct (void_inv _ H) | apply eps_inv in H; discriminate].
  - destruct (p c) eqn:Hp; split; intros H.
    + apply eps_inv in H. subst s. now constructor.
    + apply class_inv in H as (c' & Heq & _). injection Heq as _ ->. constructor.
    + destruct (void_inv _ H).
    + apply class_inv in H as (c' & Heq & Hc'). injection Heq as -> _. congruence.
  - assert (Hcat : matches (Cat (deriv c a) b) s ->
                   matches (Cat a b) (String c s)).
    { intros H. apply cat_inv in H as (s1 & s2 & -> & H1 & H2).
      change (String c (s1 ++ s2)) with (String c s1 ++ s2).
      constructor; [now apply IHa | exact H2]. }
    assert (Hinv : matches (Cat a b) (String c s) ->
                   matches (Cat (deriv c a) b) s \/
                   (matches a "" /\ matches (deriv c b) s)).
    { intros H. apply cat_inv in H as (s1 & s2 & Heq & H1 & H2).
      destruct s1 as [| c1 s1]; cbn in Heq.
      - right. subst s2. split; [exact H1 | now apply IHb].
      - injection Heq as -> ->. left. constructor; [now apply IHa | exact H2]. }
    destruct (nullable a) eqn:Hn.
    + split.
      * intros H. apply alt_inv in H as [H | H]; [now apply Hcat |].
        change (String c s) with ("" ++ String c s).
        constructor; [now apply nullable_matches | now apply IHb].
      * intros H. destruct (Hinv H) as [H1 | [_ H2]];
          [now apply m_alt_l | now apply m_alt_r].
    + split; [exact Hcat |].
      intros H. destruct (Hinv H) as [H1 | [H1 _]]; [exact H1 |].
      apply nullable_matches in H1. congruence.
  - split; intros H; apply alt_inv in H as [H | H].
    + apply m_alt_l. now apply IHa.
    + apply m_alt_r. now apply IHb.
    + apply m_alt_l. now apply IHa.
    + apply m_alt_r. now apply IHb.
  - split.
    + intros H. apply cat_inv in H as (s1 & s2 & -> & H1 & H2).
      change (String c (s1 ++ s2)) with (String c s1 ++ s2).
      constructor; [now apply IHa | exact H2].
    + intros H. destruct (star_cons_inv a _ H c s eq_refl) as (s1 & s2 & -> & H1 & H2).
      constructor; [now apply IHa | exact H2].
Qed.

Lemma match_prefix_nil (r : regex) : match_prefix r "" = nullable r.
Proof. apply orb_false_r. Qed.

Lemma match_prefix_cons (r : regex) (c : ascii) (s : string) :
  match_prefix r (String c s) = (nullable r || match_prefix (deriv c r) s)%bool.
Proof. reflexivity. Qed.

Lemma search_nil (r : regex) : search r "" = nullable r.
Proof. cbn. now rewrite !orb_false_r. Qed.

Lemma search_cons (r : regex) (c : ascii) (s : string) :
  search r (String c s) = (match_prefix r (String c s) || search r s)%bool.
Proof. reflexivity. Qed.

Lemma match_prefix_spec (s : string) :
  forall r, match_prefix r s = true <-> exists s1 s2, s = s1 ++ s2 /\ matches r s1.
Proof.
  induction s as [| c s IH]; intros r.
  - rewrite match_prefix_nil, nullable_matches. split.
    + intros H. exists "", "". auto.
    + intros (s1 & s2 & Heq & H). symmetry in Heq.
      apply append_eq_nil in Heq as [-> _]. exact H.
  - rewrite match_prefix_cons, orb_true_iff, nullable_matches, IH. split.
    + intros [H | (s1 & s2 & -> & H)].
      * exists "", (String c s). auto.
      * exists (String c s1), s2. split; [reflexivity | now apply deriv_matches].
    + intros (s1 & s2 & Heq & H). destruct s1 as [| c1 s1]; cbn in Heq.
      * left. exact H.
      * injection Heq as <- ->. right. exists s1, s2.
        split; [reflexivity | now apply deriv_matches].
Qed.

Lemma search_spec (r : regex) (s : string) :
  search r s = true <-> exists s0 s1 s2, s = s0 ++ s1 ++ s2 /\ matches r s1.
Proof.
  induction s as [| c s IH].
  - rewrite search_nil, nullable_matches. split.
    + intros H. exists "", "", "". auto.
    + intros (s0 & s1 & s2 & Heq & H). symmetry in Heq.
      apply append_eq_nil in Heq as [_ Heq].
      apply append_eq_nil in Heq as [-> _]. exact H.
  - rewrite search_cons, orb_true_iff, IH, match_prefix_spec. split.
    + intros [(s1 & s2 & Heq & H) | (s0 & s1 & s2 & -> & H)].
      * exists "", s1, s2. auto.
      * exists (String c s0), s1, s2. auto.
    + intros (s0 & s1 & s2 & Heq & H). destruct s0 as [| c0 s0]; cbn in Heq.
      * left. exists s1, s2. auto.
      * injection Heq as <- ->. right. exists s0, s1, s2. auto.
Qed.

End ReFacts.

(** ** Sanitizer *)

Lemma chars_of_chars (l : list ascii) : Str.chars (Str.of_chars l) = l.
Proof. apply list_ascii_of_string_of_list_ascii. Qed.

Lemma of_chars_nil_inv (l : list ascii) : Str.of_chars l = "" -> l = [].
Proof. destruct l; [reflexivity | discriminate]. Qed.

Lemma or_else_spec (a b : string) :
  (a = "" /\ Str.or_else a b = b) \/ (a <> "" /\ Str.or_else a b = a).
Proof.
  destruct a; [left | right]; split; try reflexivity; discriminate.
Qed.

(** C4, the claim as it stands fails: the three question marks become three
    underscores, which is not the fallback. *)
Lemma sanitize_question_marks_not_fallback :
  sanitize "???" = "___" /\ sanitize "???" <> "output".
Proof. split; [reflexivity | discriminate]. Qed.

Lemma chars_re_sub_invalid (name : string) :
  Str.chars (re_sub_invalid name)
  = map (fun c => if INVALID_FS c then "_"%char else c) (Str.chars name).
Proof.
  induction name as [| c r IH]; [reflexivity |].
  cbn. f_equal. exact IH.
Qed.

Lemma lstrip_by_keeps (p : ascii -> bool) (x : ascii) (l : list ascii) :
  p x = false -> In x l -> In x (Str.lstrip_by p l).
Proof.
  intros Hp. induction l as [| c r IH]; intros Hin; [contradiction |].
  cbn. destruct (p c) eqn:Hc; [| exact Hin].
  destruct Hin as [-> | Hin]; [congruence | exact (IH Hin)].
Qed.

Lemma rstrip_by_keeps (p : ascii -> bool) (x : ascii) (l : list ascii) :
  p x = false -> In x l -> In x (Str.rstrip_by p l).
Proof.
  intros Hp Hin. unfold Str.rstrip_by. apply -> in_rev.
  apply lstrip_by_keeps; [exact Hp | apply -> in_rev; exact Hin].
Qed.

(** A name with a character of [INVALID_FS] keeps the underscore that
    replaces it through the trimming, so its sanitized form is not empty. *)
Lemma sanitize_core_unsafe (name : string) (c : ascii) :
  In c (Str.chars name) -> INVALID_FS c = true -> sanitize_core name <> "".
Proof.
  intros Hin Hc.
  assert (H1 : In "_"%char (Str.chars (re_sub_invalid name))).
  { rewrite chars_re_sub_invalid. apply in_map_iff. exists c.
    rewrite Hc. split; [reflexivity | exact Hin]. }
  assert (H2 : In "_"%char (Str.chars (Str.strip (re_sub_invalid name)))).
  { unfold Str.strip. rewrite chars_of_chars.
    apply rstrip_by_keeps; [reflexivity |].
    apply lstrip_by_keeps; [reflexivity | exact H1]. }
  assert (H3 : In "_"%char
                 (Str.chars (Str.rstrip_dots (Str.strip (re_sub_invalid name))))).
  { unfold Str.rstrip_dots. rewrite chars_of_chars.
    apply rstrip_by_keeps; [reflexivity | exact H2]. }
  unfold sanitize_core, Str.take. intros Hempty.
  apply of_chars_nil_inv in Hempty.
  destruct (Str.chars (Str.rstrip_dots (Str.strip (re_sub_invalid name))));
    [contradiction | discriminate].
Qed.

(** C4 (amended): [sanitize] gives the fallback "output" when the
    substituted, trimmed and truncated name is empty, and that name itself
    otherwise; a name with an unsafe character never becomes empty; so
    [sanitize ""] is "output", [sanitize "???"] is "___" and
    [sanitize "A/B:C"] is "A_B_C". *)
Theorem sanitize_fallback (name : string) :
  ((sanitize_core name = "" /\ sanitize name = "output") \/
   (sanitize_core name <> "" /\ sanitize name = sanitize_core name)) /\
  (forall c, In c (Str.chars name) -> INVALID_FS c = true ->
             sanitize name = sanitize_core name /\ sanitize_core name <> "") /\
  sanitize "" = "output" /\
  sanitize "???" = "___" /\
  sanitize "A/B:C" = "A_B_C".
Proof.
  split; [apply or_else_spec |].
  split; [| repeat split; reflexivity].
  intros c Hin Hc. pose proof (sanitize_core_unsafe name c Hin Hc) as Hne.
  destruct (or_else_spec (sanitize_core name) "output") as [[He _] | [_ Hs]];
    [contradiction | split; [exact Hs | exact Hne]].
Qed.

(** ** Scorer and Search Session *)

Section SessionFacts.

Context {W : Type} (world : World W).

Lemma queries_of_head (term : string) :
  exists rest, queries_of term = ("ytsearch20:" ++ term) :: rest.
Proof. unfold queries_of. destruct (boost_full_of term); eexists; reflexivity. Qed.

(** A variant whose answer has a candidate: the loop stops there when the
    wait ends, and spins there otherwise; either way the remaining variants
    are not issued. *)
Lemma search_variants_hit (wait : waiter) (wl bf : bool) (q : string)
  (rest : list string) (w : W) (data : Info) (best : Cand) (more : list Cand) :
  fst (extract_info world true q w) = inr (Some data) ->
  candidates wl bf (entries_or_nil data) = best :: more ->
  search_variants world wait wl bf (q :: rest) w =
    (if wait (qsize_after (put_delay world q w)) then Ret (Some best) else Spin,
     [EvSearch q], snd (extract_info world true q w)).
Proof.
  intros Hx Hc. cbn [search_variants]. unfold bind, emit, _search_worker.
  destruct (extract_info world true q w) as [r w1]. cbn in Hx. subst r.
  rewrite Hc. cbn. destruct (wait _); reflexivity.
Qed.

Lemma search_best_hit (wait : waiter) (term : string) (verbose : bool) (w : W)
  (data : Info) (best : Cand) (more : list Cand) :
  fst (extract_info world true ("ytsearch20:" ++ term) w) = inr (Some data) ->
  candidates (want_live_of term) (boost_full_of term) (entries_or_nil data)
    = best :: more ->
  search_best world wait term verbose w =
    (if wait (qsize_after (put_delay world ("ytsearch20:" ++ term) w))
     then Ret (normalize_url (c_kind best) (e_url (c_entry best))) else Spin,
     [EvSearch ("ytsearch20:" ++ term)],
     snd (extract_info world true ("ytsearch20:" ++ term) w)).
Proof.
  intros Hx Hc. unfold search_best.
  destruct (queries_of_head term) as [rest ->].
  unfold bind at 1. rewrite (search_variants_hit _ _ _ _ _ _ _ _ _ Hx Hc).
  destruct (wait _); reflexivity.
Qed.

End SessionFacts.

Lemma scenario_candidates (swap : bool) (u1 u2 : string) :
  candidates (want_live_of scenario_term) (boost_full_of scenario_term)
    (scenario_entries swap u1 u2) =
  [mkCand (if swap then 2 else 1) (ex_collection u1) 762 playlist
          (normalize_url playlist u1);
   mkCand (if swap then 1 else 2) (ex_item u2) 620 video
          (normalize_url video u2)].
Proof. destruct swap; vm_compute; reflexivity. Qed.

(** C1, the claim as it stands fails: the item of the scenario does not
    score 670; its title carries no "official", so the 50 points of the
    claim's sum are not awarded. *)
Lemma scenario_item_score_not_670 :
  fst (score_entry (ex_item "vid42") (boost_full_of scenario_term)) = 620 /\
  fst (score_entry (ex_item "vid42") (boost_full_of scenario_term)) <> 670.
Proof. split; [vm_compute; reflexivity | vm_compute; discriminate]. Qed.

(** C1 (amended): in the scenario the collection scores 12+300+400+50 = 762
    and the item 20+300+400-100 = 620, the collection is ranked first, and a
    session whose wait for the provider's answer ends returns the locator of
    the collection after a single search call. *)
Theorem scenario_scores_and_selection {W : Type} (world : World W) (wait : waiter)
  (w : W) (swap : bool) (u1 u2 : string) (data : Info) :
  fst (extract_info world true ("ytsearch20:" ++ scenario_term) w)
    = inr (Some data) ->
  i_entries data = Some (scenario_entries swap u1 u2) ->
  wait (qsize_after (put_delay world ("ytsearch20:" ++ scenario_term) w)) = true ->
  score_entry (ex_collection u1) (boost_full_of scenario_term) = (762, playlist) /\
  score_entry (ex_item u2) (boost_full_of scenario_term) = (620, video) /\
  map c_entry (candidates (want_live_of scenario_term) (boost_full_of scenario_term)
                 (scenario_entries swap u1 u2))
    = [ex_collection u1; ex_item u2] /\
  fst (fst (search_best world wait scenario_term false w))
    = Ret (normalize_url playlist u1) /\
  snd (fst (search_best world wait scenario_term false w))
    = [EvSearch ("ytsearch20:" ++ scenario_term)].
Proof.
  intros Hx He Hw.
  split; [vm_compute; reflexivity |].
  split; [vm_compute; reflexivity |].
  split; [rewrite scenario_candidates; reflexivity |].
  assert (Hc := scenario_candidates swap u1 u2).
  assert (He' : entries_or_nil data = scenario_entries swap u1 u2)
    by (unfold entries_or_nil; rewrite He; reflexivity).
  rewrite <- He' in Hc.
  rewrite (search_best_hit world wait scenario_term false w data _ _ Hx Hc).
  rewrite Hw. split; reflexivity.
Qed.

Lemma scenario_scores_and_selection_witness :
  score_entry (ex_collection "PLabc") (boost_full_of scenario_term) = (762, playlist) /\
  score_entry (ex_item "vid42") (boost_full_of scenario_term) = (620, video) /\
  map c_entry (candidates (want_live_of scenario_term) (boost_full_of scenario_term)
                 (scenario_entries true "PLabc" "vid42"))
    = [ex_collection "PLabc"; ex_item "vid42"] /\
  fst (fst (search_best (scenario_world true) wait_done scenario_term false tt))
    = Ret "https://www.youtube.com/playlist?list=PLabc" /\
  snd (fst (search_best (scenario_world true) wait_done scenario_term false tt))
    = [EvSearch ("ytsearch20:" ++ scenario_term)].
Proof.
  apply (scenario_scores_and_selection (scenario_world true) wait_done tt true
           "PLabc" "vid42"
           (mkInfo (Some "playlist") (Some scenario_term)
              (Some (scenario_entries true "PLabc" "vid42"))));
    reflexivity.
Defined.

(** *** The live filter *)

Lemma In_insert_cand (c x : Cand) (l : list Cand) :
  In x (insert_cand c l) <-> x = c \/ In x l.
Proof.
  induction l as [| y l IH]; cbn.
  - intuition.
  - destruct (key_le c y); cbn; [| rewrite IH]; intuition.
Qed.

Lemma In_sort_cands (x : Cand) (l : list Cand) :
  In x (sort_cands l) <-> In x l.
Proof.
  induction l as [| c l IH]; cbn; [reflexivity |].
  rewrite In_insert_cand, IH. intuition.
Qed.

(** The candidates of a variant are exactly the records that are present
    and pass the live filter, each with its position and its score. *)
Lemma In_collect (wl bf : bool) (entries : list (option Entry)) :
  forall (idx : nat) (c : Cand),
    In c (collect wl bf idx entries) <->
    exists i e,
      nth_error entries i = Some (Some e) /\
      (negb wl && has_live e)%bool = false /\
      c = cand_of bf (idx + i) e.
Proof.
  induction entries as [| oe entries IH]; intros idx c.
  - cbn. split; [tauto |]. intros (i & e & H & _). destruct i; discriminate.
  - assert (Hshift : forall P : nat -> Entry -> Prop,
              (exists i e, nth_error entries i = Some (Some e) /\ P (S i) e) ->
              exists i e, nth_error (oe :: entries) i = Some (Some e) /\ P i e).
    { intros P (i & e & H & HP). exists (S i), e. split; assumption. }
    destruct oe as [e0 |]; cbn [collect].
    + fold (has_live e0). destruct (negb wl && has_live e0)%bool eqn:Hf.
      * rewrite IH. split.
        -- intros (i & e & H & Hl & ->). exists (S i), e.
           rewrite Nat.add_succ_r. repeat split; assumption.
        -- intros (i & e & H & Hl & ->). destruct i as [| i]; cbn in H.
           ++ injection H as <-. congruence.
           ++ exists i, e. rewrite Nat.add_succ_r. repeat split; assumption.
      * destruct (score_entry e0 bf) as [sc kd] eqn:Hs. cbn [In]. rewrite IH.
        split.
        -- intros [<- | (i & e & H & Hl & ->)].
           ++ exists 0%nat, e0. rewrite Nat.add_0_r. unfold cand_of.
              rewrite Hs. repeat split; assumption.
           ++ exists (S i), e. rewrite Nat.add_succ_r. repeat split; assumption.
        -- intros (i & e & H & Hl & ->). destruct i as [| i]; cbn in H.
           ++ injection H as <-. left. rewrite Nat.add_0_r. unfold cand_of.
              rewrite Hs. reflexivity.
           ++ right. exists i, e. rewrite Nat.add_succ_r.
              repeat split; assumption.
    + rewrite IH. split.
      * intros (i & e & H & Hl & ->). exists (S i), e.
        rewrite Nat.add_succ_r. repeat split; assumption.
      * intros (i & e & H & Hl & ->). destruct i as [| i]; cbn in H.
        -- discriminate.
        -- exists i, e. rewrite Nat.add_succ_r. repeat split; assumption.
Qed.

Lemma In_candidates (wl bf : bool) (entries : list (option Entry)) (c : Cand) :
  In c (candidates wl bf entries) <->
  exists i e,
    nth_error entries i = Some (Some e) /\
    (negb wl && has_live e)%bool = false /\
    c = cand_of bf (S i) e.
Proof. unfold candidates. rewrite In_sort_cands. apply In_collect. Qed.

(** C6: a returned record whose lower-cased title contains "live" is no
    candidate of a term without "live", whatever its score (no candidate has
    its position, and no candidate has "live" in its title); for a term with
    "live" the record is a candidate, at its position and with its score. *)
Theorem live_filter (term : string) (entries : list (option Entry))
  (i : nat) (e : Entry) :
  nth_error entries i = Some (Some e) ->
  Str.contains "live" (Str.lower (title_or_empty (e_title e))) = true ->
  let cands := candidates (want_live_of term) (boost_full_of term) entries in
  (Str.contains "live" (Str.lower term) = false ->
   forall c, In c cands ->
             c_idx c <> S i /\
             Str.contains "live" (Str.lower (title_or_empty (e_title (c_entry c))))
               = false) /\
  (Str.contains "live" (Str.lower term) = true ->
   In (cand_of (boost_full_of term) (S i) e) cands).
Proof.
  intros Hn Hl cands. subst cands. fold (want_live_of term). split; intros Hw.
  - intros c Hc. apply In_candidates in Hc.
    destruct Hc as (j & e' & Hj & Hf & ->). rewrite Hw in Hf. cbn in Hf.
    split; [| exact Hf].
    cbn. intros Heq. injection Heq as ->. rewrite Hn in Hj.
    injection Hj as <-. unfold has_live in Hf. congruence.
  - apply In_candidates. exists i, e. rewrite Hw. cbn. auto.
Qed.

(** *** Variant short-circuit and the polling loop *)

Lemma poll_total_zero (fuel : nat) (qsize : nat -> nat) :
  forall (spin : tqdm) (k : nat), total spin = 0 -> poll fuel qsize spin k = None.
Proof.
  induction fuel as [| f IH]; intros spin k Ht; cbn [poll]; [reflexivity |].
  rewrite Ht. cbn [orb Z.eqb]. apply IH. exact Ht.
Qed.

(** The same loop with a spinner whose total is not 0 ends at the first
    poll that sees the outcome on the queue. *)
Lemma poll_nonzero_total (d : nat) :
  forall (n k : nat) (spin : tqdm),
    total spin <> 0 -> (k + n = d)%nat ->
    exists spin', poll (S n) (qsize_after d) spin k = Some (spin', d).
Proof.
  induction n as [| n IH]; intros k spin Ht Hk.
  - rewrite Nat.add_0_r in Hk. subst k. cbn [poll]. unfold qsize_after.
    rewrite Nat.leb_refl. apply Z.eqb_neq in Ht. rewrite Ht. cbn.
    exists spin. reflexivity.
  - change (poll (S (S n)) (qsize_after d) spin k)
      with (if ((total spin =? 0) || Nat.eqb (qsize_after d k) 0)%bool
            then poll (S n) (qsize_after d)
                   (set_description spin
                      ("Recherche YouTube "
                         ++ String (nth (Nat.modulo k 4) frames " "%char) ""))
                   (S k)
            else Some (spin, k)).
    assert (Hq : qsize_after d k = 0%nat).
    { unfold qsize_after. destruct (Nat.leb d k) eqn:Hl; [| reflexivity].
      apply Nat.leb_le in Hl. lia. }
    rewrite Hq, orb_true_r. apply IH; [exact Ht | lia].
Qed.

Lemma poll_wait_false (fuel : nat) (qsize : nat -> nat) : poll_wait fuel qsize = false.
Proof. unfold poll_wait. rewrite poll_total_zero; reflexivity. Qed.

(** C7: with two query variants, when the provider's answer to the first
    variant has an eligible record, the first variant is the only search
    call that is issued and the world is left as that one call left it,
    whatever the second variant would have returned; when the wait ends the
    session returns the best record of the first variant. *)
Theorem variant_short_circuit {W : Type} (world : World W) (wait : waiter)
  (term : string) (verbose : bool) (w : W) (data : Info) :
  Str.contains "full album" (Str.lower term) = false ->
  fst (extract_info world true ("ytsearch20:" ++ term) w) = inr (Some data) ->
  candidates (want_live_of term) (boost_full_of term) (entries_or_nil data) <> [] ->
  queries_of term = ["ytsearch20:" ++ term; "ytsearch20:" ++ term ++ " full album"] /\
  search_calls (snd (fst (search_best world wait term verbose w)))
    = ["ytsearch20:" ++ term] /\
  snd (search_best world wait term verbose w)
    = snd (extract_info world true ("ytsearch20:" ++ term) w) /\
  (wait (qsize_after (put_delay world ("ytsearch20:" ++ term) w)) = true ->
   exists best,
     hd_error (candidates (want_live_of term) (boost_full_of term)
                 (entries_or_nil data)) = Some best /\
     fst (fst (search_best world wait term verbose w))
       = Ret (normalize_url (c_kind best) (e_url (c_entry best)))).
Proof.
  intros Hb Hx Hc.
  split; [unfold queries_of, boost_full_of; rewrite Hb; reflexivity |].
  destruct (candidates (want_live_of term) (boost_full_of term) (entries_or_nil data))
    as [| best more] eqn:Hcs; [congruence |].
  rewrite (search_best_hit world wait term verbose w data best more Hx Hcs).
  cbn. repeat split.
  intros ->. exists best. split; reflexivity.
Qed.

(** C3: the polling loop of the script never ends.  The spinner is built
    with [total = 0] and nothing changes that field, so the loop test holds
    at every poll, also at the polls at which the queue holds the outcome
    of the worker; every search session is still waiting, whatever fuel it
    is given. *)
Theorem poll_loop_never_exits {W : Type} (world : World W) (fuel delay : nat)
  (term : string) (verbose : bool) (w : W) :
  qsize_after delay delay = 1%nat /\
  poll fuel (qsize_after delay) (tqdm_new 0) 0 = None /\
  fst (fst (search_best world (poll_wait fuel) term verbose w)) = Spin.
Proof.
  split; [unfold qsize_after; rewrite Nat.leb_refl; reflexivity |].
  split; [apply poll_total_zero; reflexivity |].
  unfold search_best. destruct (queries_of_head term) as [rest ->].
  unfold bind at 1. cbn [search_variants]. unfold bind, emit, _search_worker.
  destruct (extract_info world true _ w) as [r w1].
  rewrite poll_wait_false. destruct r; reflexivity.
Qed.

(** ** Fetch Orchestrator *)

Section FetchFacts.

Context {W : Type} (world : World W).
Variables (fmt outdir : string) (is_playlist embed_thumb : bool).

(** How a run of the loop ends: either every item was fetched, each fetch
    returning or raising [DownloadError], and the loop returns the failures
    in order; or the last fetch raised another exception, which is the
    result, all earlier fetches having returned or raised [DownloadError]. *)
Lemma download_loop_run (urls : list string) :
  forall (i : nat) (fails : list (string * string)) (w : W),
    let run := download_loop world fmt outdir is_playlist embed_thumb i urls fails w in
    let r := fst (fst run) in
    let t := snd (fst run) in
    map fst (fetch_outcomes t) = firstn (length t) urls /\
    length (fetch_outcomes t) = length t /\
    reported t = [] /\
    ((r = Ret (fails ++ failures_of t)%list /\
      existsb fetch_raised_other t = false /\
      map fst (fetch_outcomes t) = urls)
     \/
     (exists t0 o u e,
         t = (t0 ++ [EvDownload o u (Some e)])%list /\
         is_DownloadError e = false /\
         existsb fetch_raised_other t0 = false /\
         r = Raise e)).
Proof.
  induction urls as [| url rest IH]; intros i fails w.
  - cbn. repeat split; try reflexivity. left.
    rewrite app_nil_r. repeat split; reflexivity.
  - cbn [download_loop].
    destruct (download world _ url w) as [o w1] eqn:Hd.
    set (opts := build_ydl_opts fmt _ embed_thumb) in *.
    assert (Hnext : forall fails',
      (forall t, failures_of (EvDownload opts url o :: t)
                 = (skipn (length fails) fails' ++ failures_of t)%list) ->
      firstn (length fails) fails' = fails ->
      fetch_raised_other (EvDownload opts url o) = false ->
      let run := download_loop world fmt outdir is_playlist embed_thumb (S i) rest fails' w1 in
      let r := fst (fst run) in
      let t := EvDownload opts url o :: snd (fst run) in
      map fst (fetch_outcomes t) = firstn (length t) (url :: rest) /\
      length (fetch_outcomes t) = length t /\
      reported t = [] /\
      ((r = Ret (fails ++ failures_of t)%list /\
        existsb fetch_raised_other t = false /\
        map fst (fetch_outcomes t) = url :: rest)
       \/
       (exists t0 o' u e,
           t = (t0 ++ [EvDownload o' u (Some e)])%list /\
           is_DownloadError e = false /\
           existsb fetch_raised_other t0 = false /\
           r = Raise e))).
    { intros fails' Hf1 Hf2 Hok.
      specialize (IH (S i) fails' w1). cbn zeta in IH |- *.
      destruct IH as (Ha & Hlen & Hrep & Hend).
      split; [cbn; f_equal; exact Ha |].
      split; [cbn; f_equal; exact Hlen |].
      split; [exact Hrep |].
      destruct Hend as [(Hr & Hex & Hall) | (t0 & o' & u & e & Ht & He & Hex & Hr)].
      - left. split; [| split].
        + rewrite Hr. f_equal.
          rewrite Hf1, app_assoc. f_equal.
          rewrite <- (firstn_skipn (length fails) fails') at 1.
          rewrite Hf2. reflexivity.
        + cbn [existsb]. rewrite Hok, Hex. reflexivity.
        + cbn. f_equal. exact Hall.
      - right. exists (EvDownload opts url o :: t0), o', u, e.
        repeat split; try assumption.
        + rewrite Ht. reflexivity.
        + cbn [existsb]. rewrite Hok, Hex. reflexivity. }
    destruct o as [e |].
    + destruct e as [msg | msg | msg | cls msg]; cbn [is_DownloadError str_exc].
      * specialize (Hnext (fails ++ [(url, msg)])%list).
        destruct (download_loop world fmt outdir is_playlist embed_thumb (S i) rest
                    (fails ++ [(url, msg)])%list w1) as [[r t] w2] eqn:Hrun.
        cbn [fst snd] in *. apply Hnext.
        -- intros t'. rewrite skipn_app, skipn_all, Nat.sub_diag. reflexivity.
        -- rewrite firstn_app, firstn_all, Nat.sub_diag. cbn. apply app_nil_r.
        -- reflexivity.
      * cbn. repeat split. right.
        exists [], opts, url, (AttributeError msg). repeat split.
      * cbn. repeat split. right.
        exists [], opts, url, (Exception msg). repeat split.
      * cbn. repeat split. right.
        exists [], opts, url, (OtherError cls msg). repeat split.
    + specialize (Hnext fails).
      destruct (download_loop world fmt outdir is_playlist embed_thumb (S i) rest
                  fails w1) as [[r t] w2] eqn:Hrun.
      cbn [fst snd] in *. apply Hnext.
      * intros t'. rewrite skipn_all. reflexivity.
      * apply firstn_all.
      * reflexivity.
Qed.

End FetchFacts.

Section OrchestratorFacts.

Context {W : Type} (world : World W).

Lemma attempted_fetch_outcomes (t : list event) :
  attempted t = map fst (fetch_outcomes t).
Proof.
  unfold attempted, fetch_outcomes.
  induction t as [| ev t IH]; [reflexivity |].
  destruct ev; cbn; rewrite ?IH; reflexivity.
Qed.

Lemma no_other_nth (t : list event) :
  existsb fetch_raised_other t = false ->
  forall k u e, nth_error (fetch_outcomes t) k = Some (u, Some e) ->
                is_DownloadError e = true.
Proof.
  induction t as [| ev t IH]; intros Hex k u e Hk.
  - destruct k; discriminate.
  - cbn [existsb] in Hex. apply orb_false_iff in Hex. destruct Hex as [Hev Ht].
    destruct ev; cbn in Hk; try (eapply IH; eassumption).
    destruct k as [| k]; cbn in Hk; [| eapply IH; eassumption].
    injection Hk as -> ->. cbn in Hev. now apply negb_false_iff in Hev.
Qed.

(** [download_list], step by step. *)
Lemma download_list_run (urls : list string) (fmt outdir : string)
  (is_playlist verbose embed_thumb : bool) (w : W) :
  download_list world urls fmt outdir is_playlist verbose embed_thumb w =
  match makedirs world outdir w with
  | (Some e, w1) => (Raise e, [EvMakedirs outdir], w1)
  | (None, w1) =>
      match download_loop world fmt outdir is_playlist embed_thumb 1 urls [] w1 with
      | (Ret [], t, w2) => (Ret tt, EvMakedirs outdir :: t ++ [], w2)
      | (Ret (f :: fs), t, w2) =>
          (Ret tt, EvMakedirs outdir :: t ++ [EvFailReport (f :: fs)], w2)
      | (Raise e, t, w2) => (Raise e, EvMakedirs outdir :: t, w2)
      | (Spin, t, w2) => (Spin, EvMakedirs outdir :: t, w2)
      end
  end%list.
Proof.
  unfold download_list, bind, emit.
  destruct (makedirs world outdir w) as [[e |] w1]; [reflexivity |].
  destruct (download_loop world fmt outdir is_playlist embed_thumb 1 urls [] w1)
    as [[[fails | e |] t] w2]; try reflexivity.
  destruct fails; reflexivity.
Qed.

Lemma flat_map_snoc_other {A B} (f : A -> list B) (l : list A) (x : A) :
  flat_map f (l ++ [x]) = (flat_map f l ++ f x)%list.
Proof. rewrite flat_map_app. cbn. now rewrite app_nil_r. Qed.

(** The branch [except DownloadError]: in a run in which every fetch returns
    or does raise [DownloadError], every item is attempted, in the order of
    the list, each raised error is recorded as the pair of the locator and
    the text of the error, that list is reported when it is not empty, and
    the run returns. *)
Lemma download_error_recorded (urls : list string) (fmt outdir : string)
  (is_playlist verbose embed_thumb : bool) (w : W) :
  let run := download_list world urls fmt outdir is_playlist verbose embed_thumb w in
  let t := snd (fst run) in
  fst (makedirs world outdir w) = None ->
  existsb fetch_raised_other t = false ->
  fst (fst run) = Ret tt /\
  attempted t = urls /\
  reported t = match failures_of t with [] => [] | f => [f] end.
Proof.
  cbn zeta. rewrite download_list_run.
  destruct (makedirs world outdir w) as [[e |] w1]; cbn [fst]; [discriminate |].
  intros _.
  pose proof (download_loop_run world fmt outdir is_playlist embed_thumb urls 1 [] w1)
    as Hrun. cbn zeta in Hrun.
  destruct (download_loop world fmt outdir is_playlist embed_thumb 1 urls [] w1)
    as [[r t] w2]. cbn [fst snd] in Hrun.
  destruct Hrun as (_ & _ & Hrep & [(Hr & Hex & Hall) | (t0 & o & u & e & Ht & He & _ & Hr)]).
  - subst r. cbn [app]. intros _.
    assert (Hfo : forall x, failures_of (EvMakedirs outdir :: x) = failures_of x)
      by reflexivity.
    assert (Hat : forall x, attempted (EvMakedirs outdir :: x) = attempted x)
      by reflexivity.
    assert (Hre : forall x, reported (EvMakedirs outdir :: x) = reported x)
      by reflexivity.
    destruct (failures_of t) as [| f fs] eqn:Hf; cbn [fst snd].
    + rewrite app_nil_r, Hfo, Hat, Hre, Hf, Hrep, attempted_fetch_outcomes.
      repeat split. exact Hall.
    + rewrite Hfo, Hat, Hre. unfold failures_of, attempted, reported.
      rewrite !flat_map_snoc_other. cbn [app].
      fold (failures_of t) (attempted t) (reported t).
      rewrite !app_nil_r, Hf, Hrep, attempted_fetch_outcomes.
      repeat split. exact Hall.
  - subst r t. cbn [fst snd existsb]. rewrite existsb_app. cbn.
    rewrite He. cbn. rewrite orb_true_r. discriminate.
Qed.

(** C10: when a fetch raises an exception that is not a [DownloadError],
    the orchestrator ends with that exception, the fetch is the last one of
    the run (the items after it are not attempted) and no failure list is
    reported. *)
Theorem other_exception_aborts (urls : list string) (fmt outdir : string)
  (is_playlist verbose embed_thumb : bool) (w : W)
  (k : nat) (u : string) (e : exc) :
  let run := download_list world urls fmt outdir is_playlist verbose embed_thumb w in
  let t := snd (fst run) in
  nth_error (fetch_outcomes t) k = Some (u, Some e) ->
  is_DownloadError e = false ->
  fst (fst run) = Raise e /\
  nth_error urls k = Some u /\
  attempted t = firstn (S k) urls /\
  reported t = [].
Proof.
  cbn zeta. rewrite download_list_run.
  destruct (makedirs world outdir w) as [[e0 |] w1]; cbn [fst snd].
  { destruct k; discriminate. }
  pose proof (download_loop_run world fmt outdir is_playlist embed_thumb urls 1 [] w1)
    as Hrun. cbn zeta in Hrun.
  destruct (download_loop world fmt outdir is_playlist embed_thumb 1 urls [] w1)
    as [[r t] w2]. cbn [fst snd] in Hrun.
  destruct Hrun as (Hpre & Hlen & Hrep & [(Hr & Hex & Hall) | (t0 & o & u' & e' & Ht & He & Hex & Hr)]).
  - subst r. cbn [app]. intros Hk Hne. exfalso.
    assert (Hk' : nth_error (fetch_outcomes t) k = Some (u, Some e)).
    { destruct (failures_of t) as [| f fs]; cbn [fst snd] in Hk.
      - rewrite app_nil_r in Hk. exact Hk.
      - change (fetch_outcomes (EvMakedirs outdir :: ?x)) with (fetch_outcomes x) in Hk.
        unfold fetch_outcomes in Hk. rewrite flat_map_snoc_other in Hk.
        cbn [app] in Hk. rewrite app_nil_r in Hk. exact Hk. }
    pose proof (no_other_nth t Hex k u e Hk'). congruence.
  - subst r. cbn [fst snd]. intros Hk Hne.
    change (fetch_outcomes (EvMakedirs outdir :: t)) with (fetch_outcomes t) in Hk.
    change (attempted (EvMakedirs outdir :: t)) with (attempted t).
    change (reported (EvMakedirs outdir :: t)) with (reported t).
    assert (Hfo : fetch_outcomes t = (fetch_outcomes t0 ++ [(u', Some e')])%list).
    { rewrite Ht. unfold fetch_outcomes. now rewrite flat_map_snoc_other. }
    rewrite Hfo in Hk.
    assert (Hkk : k = length (fetch_outcomes t0)).
    { destruct (Nat.lt_trichotomy k (length (fetch_outcomes t0))) as [Hlt | [Heq | Hgt]].
      - rewrite nth_error_app1 in Hk by exact Hlt.
        pose proof (no_other_nth t0 Hex k u e Hk). congruence.
      - exact Heq.
      - exfalso. assert (Hnone : nth_error (fetch_outcomes t0 ++ [(u', Some e')]) k = None).
        { apply nth_error_None. rewrite length_app. cbn. lia. }
        congruence. }
    rewrite nth_error_app2 in Hk by lia.
    rewrite Hkk, Nat.sub_diag in Hk. cbn in Hk. injection Hk as -> ->.
    assert (Hlt : length t = S k).
    { rewrite <- Hlen, Hfo, length_app. cbn. lia. }
    rewrite attempted_fetch_outcomes, Hpre, Hlt.
    repeat split; try assumption.
    assert (Hu : nth_error (map fst (fetch_outcomes t)) k = Some u).
    { rewrite Hfo, map_app, nth_error_app2 by (rewrite length_map; lia).
      rewrite length_map, Hkk, Nat.sub_diag. reflexivity. }
    rewrite Hpre, Hlt in Hu.
    rewrite nth_error_firstn in Hu.
    destruct (Nat.ltb k (S k)) eqn:Hl; [exact Hu | discriminate].
Qed.

End OrchestratorFacts.

(** ** Collection Expander *)

(** Two such collections: one without members, and one whose members are
    all unresolvable. *)
Lemma empty_collection_not_an_error :
  get_video_list empty_collection_world
      "https://www.youtube.com/playlist?list=PLempty" tt
    = (Ret ([], true, "Empty"),
       [EvExtract "https://www.youtube.com/playlist?list=PLempty"], tt) /\
  get_video_list empty_collection_world
      "https://www.youtube.com/playlist?list=PLgone" tt
    = (Ret ([], true, "Gone"),
       [EvExtract "https://www.youtube.com/playlist?list=PLgone"], tt).
Proof. split; reflexivity. Qed.

(** C5: the expander has no check for an empty collection. For every
    locator whose descriptor is a collection with zero resolvable members
    [get_video_list] returns the empty item list, with the collection flag
    and the title of the collection ("playlist" when it has none), where the
    claim asks for a failure; the versions of the function before this one
    end with [if not urls: raise Exception]. *)
Theorem empty_collection_returns_nil {W : Type} (world : World W)
  (url : string) (w : W) (info : Info) :
  fst (extract_info world false url w) = inr (Some info) ->
  i_type info = Some "playlist" ->
  (forall oe, In oe (match i_entries info with Some l => l | None => [] end) ->
              oe = None) ->
  fst (fst (get_video_list world url w))
    = Ret ([], true, Str.or_else (title_or_empty (i_title info)) "playlist").
Proof.
  intros Hx Ht Hnone. unfold get_video_list, bind, emit.
  destruct (extract_info world false url w) as [r w1]. cbn in Hx. subst r.
  rewrite Ht. cbn [opt_string_eqb]. rewrite String.eqb_refl. cbn [fst snd].
  f_equal. f_equal. f_equal.
  induction (match i_entries info with Some l => l | None => [] end)
    as [| oe l IH]; [reflexivity |].
  cbn [flat_map]. rewrite (Hnone oe (or_introl eq_refl)). cbn [app].
  apply IH. intros oe' Hin. apply Hnone. right. exact Hin.
Qed.

Lemma empty_collection_returns_nil_witness :
  fst (fst (get_video_list empty_collection_world
              "https://www.youtube.com/playlist?list=PLgone" tt))
    = Ret ([], true, "Gone").
Proof.
  apply (empty_collection_returns_nil empty_collection_world
           "https://www.youtube.com/playlist?list=PLgone" tt
           (mkInfo (Some "playlist") (Some "Gone") (Some [None; None]))).
  - reflexivity.
  - reflexivity.
  - cbn. intros oe [<- | [<- | []]]; reflexivity.
Defined.

(** ** Task Runner *)

(** A file whose first line starts with a hash sign: the line becomes a
    search task. *)
Lemma comment_line_becomes_search_task :
  fst (fst (gather_tasks file_world file_args tt))
    = Ret [("search", "# favourites"); ("url", "https://youtu.be/abc");
           ("search", "Band - Album")].
Proof. reflexivity. Qed.

Lemma tasks_of_lines_map_filter (lines : list string) :
  tasks_of_lines lines
  = map (fun l => (if Str.startswith l "http" then "url" else "search", l))
        (filter Str.truthy (map Str.strip lines)).
Proof.
  unfold tasks_of_lines. induction lines as [| l lines IH]; [reflexivity |].
  cbn [flat_map map filter]. rewrite IH.
  destruct (Str.truthy (Str.strip l)); cbn [negb app map]; [| reflexivity].
  unfold classify. destruct (Str.startswith (Str.strip l) "http"); reflexivity.
Qed.

Lemma hash_not_http (l : string) :
  Str.startswith l "#" = true -> Str.startswith l "http" = false.
Proof.
  destruct l as [| c r]; cbn [Str.startswith]; intros H; [discriminate H |].
  destruct (Ascii.eqb "#" c) eqn:Hc; [| discriminate H].
  apply Ascii.eqb_eq in Hc. subst c. reflexivity.
Qed.

(** C9: [gather_tasks] has no test for a leading hash sign. The lines of an
    input file are trimmed, those that are then empty are dropped, and
    every remaining line becomes a task, in file order, by its "http"
    prefix alone; so every remaining line that starts with a hash sign
    becomes a search task, where the claim asks that it be ignored, as
    [read_file] of the versions before this one does. *)
Theorem file_tasks {W : Type} (world : World W) (w : W) (args : Args)
  (path : string) (lines : list string) :
  a_inputs args = [path] ->
  a_search args = None ->
  isfile world path w = true ->
  read_lines world path w = inr lines ->
  let kept := filter Str.truthy (map Str.strip lines) in
  fst (fst (gather_tasks world args w))
    = Ret (map (fun l => (if Str.startswith l "http" then "url" else "search", l))
             kept) /\
  (forall l, In l kept -> Str.startswith l "#" = true ->
             exists tasks, fst (fst (gather_tasks world args w)) = Ret tasks /\
                           In ("search", l) tasks).
Proof.
  intros Hi Hs Hf Hr kept.
  assert (Hg : fst (fst (gather_tasks world args w))
               = Ret (map (fun l => (if Str.startswith l "http" then "url"
                                     else "search", l)) kept)).
  { unfold gather_tasks, bind. rewrite Hi, Hs. cbn [gather_inputs].
    rewrite Hf, Hr. cbn. rewrite tasks_of_lines_map_filter. reflexivity. }
  split; [exact Hg |].
  intros l Hin Hh. eexists. split; [exact Hg |].
  apply in_map_iff. exists l. rewrite (hash_not_http l Hh).
  split; [reflexivity | exact Hin].
Qed.

Lemma file_tasks_witness :
  fst (fst (gather_tasks file_world file_args tt))
    = Ret (map (fun l => (if Str.startswith l "http" then "url" else "search", l))
             ["# favourites"; "https://youtu.be/abc"; "Band - Album"]) /\
  (forall l, In l ["# favourites"; "https://youtu.be/abc"; "Band - Album"] ->
             Str.startswith l "#" = true ->
             exists tasks,
               fst (fst (gather_tasks file_world file_args tt)) = Ret tasks /\
               In ("search", l) tasks).
Proof.
  apply (file_tasks file_world tt file_args "list.txt" list_file); reflexivity.
Defined.

Section RunnerFacts.

Context {W : Type} (world : World W) (wait : waiter).

Lemma extract_calls_app (t1 t2 : list event) :
  extract_calls (t1 ++ t2) = (extract_calls t1 ++ extract_calls t2)%list.
Proof. apply flat_map_app. Qed.

Lemma get_video_list_trace (url : string) (w : W) :
  snd (fst (get_video_list world url w)) = [EvExtract url] /\
  fst (fst (get_video_list world url w)) <> Spin.
Proof.
  unfold get_video_list, bind, emit.
  destruct (extract_info world false url w) as [[e | [info |]] w1];
    try destruct (opt_string_eqb (i_type info) "playlist");
    cbn; split; try reflexivity; discriminate.
Qed.

Lemma download_loop_quiet (fmt outdir : string) (pl th : bool) (urls : list string) :
  forall (i : nat) (fails : list (string * string)) (w : W),
    extract_calls (snd (fst (download_loop world fmt outdir pl th i urls fails w))) = [] /\
    fst (fst (download_loop world fmt outdir pl th i urls fails w)) <> Spin.
Proof.
  induction urls as [| url rest IH]; intros i fails w.
  - cbn. split; [reflexivity | discriminate].
  - cbn [download_loop]. destruct (download world _ url w) as [o w1].
    destruct o as [[msg | msg | msg | cls msg] |]; cbn [is_DownloadError str_exc];
      try (cbn; split; [reflexivity | discriminate]).
    + specialize (IH (S i) (fails ++ [(url, msg)])%list w1).
      destruct (download_loop world fmt outdir pl th (S i) rest _ w1) as [[r t] w2].
      exact IH.
    + specialize (IH (S i) fails w1).
      destruct (download_loop world fmt outdir pl th (S i) rest _ w1) as [[r t] w2].
      exact IH.
Qed.

Lemma download_list_quiet (urls : list string) (fmt outdir : string)
  (pl verbose th : bool) (w : W) :
  extract_calls (snd (fst (download_list world urls fmt outdir pl verbose th w))) = [] /\
  fst (fst (download_list world urls fmt outdir pl verbose th w)) <> Spin.
Proof.
  rewrite download_list_run.
  destruct (makedirs world outdir w) as [[e |] w1];
    [cbn; split; [reflexivity | discriminate] |].
  pose proof (download_loop_quiet fmt outdir pl th urls 1 [] w1) as [Hq Hs].
  destruct (download_loop world fmt outdir pl th 1 urls [] w1) as [[r t] w2].
  cbn [fst snd] in Hq, Hs.
  destruct r as [[| f fs] | e |]; cbn [fst snd];
    change (extract_calls (EvMakedirs outdir :: ?x)) with (extract_calls x);
    rewrite ?extract_calls_app, ?Hq;
    (split; [reflexivity | try discriminate]).
  exfalso. apply Hs. reflexivity.
Qed.

(** A task that is a direct locator hands this locator to the expander and
    ends, with a value or an exception. *)
Lemma run_task_url (args : Args) (val : string) (w : W) :
  extract_calls (snd (fst (run_task world wait args ("url", val) w))) = [val] /\
  fst (fst (run_task world wait args ("url", val) w)) <> Spin.
Proof.
  unfold run_task. cbn [String.eqb Ascii.eqb Bool.eqb andb].
  change (String.eqb "url" "search") with false. cbn iota.
  unfold bind at 1. unfold ret. unfold bind.
  pose proof (get_video_list_trace val w) as [Ht Hs].
  destruct (get_video_list world val w) as [[r t] w1]. cbn [fst snd] in Ht, Hs. subst t.
  destruct r as [[[urls is_pl] title] | e |]; cbn [fst snd app];
    try (split; [reflexivity | congruence]).
  match goal with
  | |- context [download_list world ?a ?b ?c ?d ?e ?f ?g] =>
      pose proof (download_list_quiet a b c d e f g) as [Hq Hd];
      destruct (download_list world a b c d e f g) as [[r2 t2] w2]
  end.
  cbn [fst snd] in *.
  change (extract_calls (EvExtract val :: t2)) with (val :: extract_calls t2).
  rewrite Hq. split; [reflexivity | exact Hd].
Qed.

(** The task loop catches every exception: it ends normally or is still
    waiting in a search. *)
Lemma run_tasks_no_raise (args : Args) (tasks : list Task) :
  forall w : W,
    fst (fst (run_tasks world wait args tasks w)) = Ret tt \/
    fst (fst (run_tasks world wait args tasks w)) = Spin.
Proof.
  induction tasks as [| task rest IH]; intros w; [left; reflexivity |].
  cbn [run_tasks]. unfold bind, try_except, emit.
  destruct (run_task world wait args task w) as [[[[] | e |] t] w1]; cbn [fst snd].
  - specialize (IH w1).
    destruct (run_tasks world wait args rest w1) as [[r2 t2] w2]. exact IH.
  - specialize (IH w1).
    destruct (run_tasks world wait args rest w1) as [[r2 t2] w2]. exact IH.
  - right. reflexivity.
Qed.

(** With direct locators only, the loop hands every locator to the
    expander, in order, whatever happened to the tasks before, and ends
    normally. *)
Lemma run_tasks_urls (args : Args) (tasks : list Task) :
  (forall task, In task tasks -> fst task = "url") ->
  forall w : W,
    fst (fst (run_tasks world wait args tasks w)) = Ret tt /\
    extract_calls (snd (fst (run_tasks world wait args tasks w))) = map snd tasks.
Proof.
  induction tasks as [| [kind val] rest IH]; intros Hk w; [split; reflexivity |].
  assert (Hkind : kind = "url") by (apply (Hk (kind, val)); left; reflexivity).
  subst kind.
  assert (Hrest : forall task, In task rest -> fst task = "url")
    by (intros task Hin; apply Hk; right; exact Hin).
  specialize (IH Hrest).
  cbn [run_tasks]. unfold bind, try_except, emit.
  pose proof (run_task_url args val w) as [Hx Hs].
  destruct (run_task world wait args ("url", val) w) as [[[[] | e |] t] w1];
    cbn [fst snd] in *; try congruence.
  - specialize (IH w1).
    destruct (run_tasks world wait args rest w1) as [[r2 t2] w2].
    cbn [fst snd] in *. destruct IH as [-> Hx2].
    rewrite extract_calls_app, Hx, Hx2. split; reflexivity.
  - specialize (IH w1).
    destruct (run_tasks world wait args rest w1) as [[r2 t2] w2].
    cbn [fst snd] in *. destruct IH as [-> Hx2].
    rewrite !extract_calls_app, Hx, Hx2. split; reflexivity.
Qed.

(** [gather_tasks] only reads. *)
Lemma gather_inputs_pure (inputs : list string) :
  forall (tasks : list Task) (w : W),
    snd (gather_inputs world inputs tasks w) = w /\
    snd (fst (gather_inputs world inputs tasks w)) = [].
Proof.
  induction inputs as [| inp rest IH]; intros tasks w; [split; reflexivity |].
  cbn [gather_inputs]. destruct (isfile world inp w).
  - destruct (read_lines world inp w); [split; reflexivity | apply IH].
  - apply IH.
Qed.

Lemma gather_tasks_pure (args : Args) (w : W) :
  snd (gather_tasks world args w) = w /\ snd (fst (gather_tasks world args w)) = [].
Proof.
  unfold gather_tasks, bind.
  pose proof (gather_inputs_pure (a_inputs args) [] w) as [Hw Ht].
  destruct (gather_inputs world (a_inputs args) [] w) as [[r t] w1].
  cbn [fst snd] in *. subst.
  destruct r as [tasks | e |]; try (split; reflexivity).
  destruct (a_search args) as [s |]; [destruct (Str.truthy s) |]; split; reflexivity.
Qed.

(** The task loop never ends with a failure status: with at least one task
    the run exits with status 0 or is still waiting in a search; when all
    tasks are direct locators it exits with status 0 after every locator
    was handed to the expander, in order, whether or not tasks failed. *)
Lemma cli_exit_status (args : Args) (w : W) (tasks : list Task) :
  a_help args = false ->
  fst (fst (gather_tasks world args w)) = Ret tasks ->
  tasks <> [] ->
  let run := cli world wait args w in
  (fst (fst run) = Ret 0 \/ fst (fst run) = Spin) /\
  ((forall task, In task tasks -> fst task = "url") ->
   exit_status (fst (fst run)) = Some 0 /\
   extract_calls (snd (fst run)) = map snd tasks).
Proof.
  intros Hh Hg Hne run.
  assert (Hgo : (match a_inputs args with [] => true | _ => false end
                 && negb (Str.opt_truthy (a_search args)))%bool = false).
  { destruct (a_inputs args) as [| inp rest] eqn:Hi; [| reflexivity].
    destruct (Str.opt_truthy (a_search args)) eqn:Hs; [reflexivity |].
    exfalso. apply Hne. unfold gather_tasks, bind in Hg. rewrite Hi in Hg.
    cbn in Hg. destruct (a_search args) as [s |]; cbn in Hs.
    - rewrite Hs in Hg. cbn in Hg. congruence.
    - cbn in Hg. congruence. }
  assert (Hrun : run = bind (run_tasks world wait args tasks) (fun _ => ret 0) w).
  { unfold run, cli. rewrite Hh, Hgo. cbn [orb]. unfold bind at 1.
    pose proof (gather_tasks_pure args w) as [Hw Ht].
    destruct (gather_tasks world args w) as [[r t] w1]. cbn [fst snd] in *. subst.
    destruct tasks as [| task rest]; [congruence |].
    destruct (bind _ _ w) as [[r2 t2] w2]. reflexivity. }
  rewrite Hrun. clear Hrun run. unfold bind, ret.
  pose proof (run_tasks_no_raise args tasks w) as Hnr.
  pose proof (run_tasks_urls args tasks) as Hu.
  destruct (run_tasks world wait args tasks w) as [[r2 t2] w2] eqn:Hrun.
  cbn [fst snd] in Hnr. split.
  - destruct Hnr as [-> | ->]; [left | right]; reflexivity.
  - intros Hk. specialize (Hu Hk w). rewrite Hrun in Hu. cbn [fst snd] in Hu.
    destruct Hu as [-> Hx]. cbn. rewrite app_nil_r. split; [reflexivity | exact Hx].
Qed.

End RunnerFacts.

(** ** The properties on concrete runs *)

Lemma live_filter_witness :
  let cands := candidates (want_live_of "band album") (boost_full_of "band album")
                 live_entries in
  (Str.contains "live" (Str.lower "band album") = false ->
   forall c, In c cands ->
             c_idx c <> 1%nat /\
             Str.contains "live" (Str.lower (title_or_empty (e_title (c_entry c))))
               = false) /\
  (Str.contains "live" (Str.lower "band album") = true ->
   In (cand_of (boost_full_of "band album") 1
         (mkEntry (Some "url") (Some "Band - Album (1999) LIVE at Wembley") "v7"
            None (Some 900000000) None)) cands).
Proof.
  apply (live_filter "band album" live_entries 0
           (mkEntry (Some "url") (Some "Band - Album (1999) LIVE at Wembley") "v7"
              None (Some 900000000) None)); reflexivity.
Defined.

Lemma variant_short_circuit_witness :
  queries_of "abba" = ["ytsearch20:abba"; "ytsearch20:abba full album"] /\
  search_calls (snd (fst (search_best two_variant_world wait_done "abba" false tt)))
    = ["ytsearch20:abba"] /\
  fst (fst (search_best two_variant_world wait_done "abba" false tt))
    = Ret "https://www.youtube.com/watch?v=v1".
Proof.
  pose proof (variant_short_circuit two_variant_world wait_done "abba" false tt
                (mkInfo (Some "playlist") (Some "abba")
                   (Some [Some (mkEntry (Some "url") (Some "Abba hits") "v1"
                                  None (Some 1000) None)]))
                eq_refl eq_refl) as H.
  assert (Hne : candidates (want_live_of "abba") (boost_full_of "abba")
                  [Some (mkEntry (Some "url") (Some "Abba hits") "v1"
                           None (Some 1000) None)] <> [])
    by (vm_compute; discriminate).
  destruct (H Hne) as (Hq & Hc & _ & Hr).
  split; [exact Hq |]. split; [exact Hc |].
  destruct (Hr eq_refl) as (best & Hb & Hres).
  injection Hb as <-. exact Hres.
Defined.

Lemma other_exception_aborts_witness :
  let run := download_list (fetch_world "https://youtu.be/item2"
                              (OtherError "OSError" "No space left on device"))
               five_items "mp3" "Album" true false false tt in
  fst (fst run) = Raise (OtherError "OSError" "No space left on device") /\
  nth_error five_items 1 = Some "https://youtu.be/item2" /\
  attempted (snd (fst run)) = ["https://youtu.be/item1"; "https://youtu.be/item2"] /\
  reported (snd (fst run)) = [].
Proof.
  exact (other_exception_aborts (fetch_world "https://youtu.be/item2"
                                   (OtherError "OSError" "No space left on device"))
           five_items "mp3" "Album" true false false tt
           1 "https://youtu.be/item2" (OtherError "OSError" "No space left on device")
           eq_refl eq_refl).
Defined.

(** C8, the claim as it stands fails: the locator of the first of two tasks
    is not available, so the expander ends with an [AttributeError] and the
    task fails; the second task is still run, and the exit status is 0,
    the status of a run without any failure. *)
Lemma failed_task_exit_status_zero :
  let run := cli unavailable_world (poll_wait 10) one_bad_args tt in
  task_errors (snd (fst run))
    = [("https://youtu.be/bad",
        AttributeError "'NoneType' object has no attribute 'get'")] /\
  attempted (snd (fst run)) = ["https://youtu.be/good"] /\
  exit_status (fst (fst run)) = Some 0.
Proof. vm_compute. repeat split. Qed.


(* ================================================================== *)
(** * Further properties of the script *)

(** ** Sanitizer *)

Section SanitizerFacts.

Lemma length_of_chars (l : list ascii) : String.length (Str.of_chars l) = length l.
Proof.
  unfold Str.of_chars. induction l as [| c l IH]; cbn; [reflexivity | now rewrite IH].
Qed.

Lemma length_chars (s : string) : length (Str.chars s) = String.length s.
Proof.
  unfold Str.chars. induction s as [| c s IH]; cbn; [reflexivity | now rewrite IH].
Qed.

Lemma lstrip_by_suffix (p : ascii -> bool) (l : list ascii) :
  exists pre, l = (pre ++ Str.lstrip_by p l)%list /\ forallb p pre = true.
Proof.
  induction l as [| c r (pre & Hr & Hp)]; [exists []; split; reflexivity |].
  cbn. destruct (p c) eqn:Hc.
  - exists (c :: pre). cbn. rewrite Hc, Hp. split; [f_equal; exact Hr | reflexivity].
  - exists []. split; reflexivity.
Qed.

Lemma lstrip_by_head (p : ascii -> bool) (l : list ascii) (c : ascii) (r : list ascii) :
  Str.lstrip_by p l = c :: r -> p c = false.
Proof.
  induction l as [| x l IH]; cbn; [discriminate |].
  destruct (p x) eqn:Hx; [exact IH |]. intros H. injection H as <- _. exact Hx.
Qed.

Lemma rstrip_by_prefix (p : ascii -> bool) (l : list ascii) :
  is_prefix (Str.rstrip_by p l) l.
Proof.
  unfold Str.rstrip_by. destruct (lstrip_by_suffix p (rev l)) as (pre & Hr & _).
  exists (rev pre). rewrite <- rev_app_distr, <- Hr. symmetry. apply rev_involutive.
Qed.

Lemma rstrip_by_last (p : ascii -> bool) (l pre : list ascii) (x : ascii) :
  Str.rstrip_by p l = (pre ++ [x])%list -> p x = false.
Proof.
  unfold Str.rstrip_by. intros H.
  apply (f_equal (@rev ascii)) in H. rewrite rev_involutive, rev_app_distr in H.
  cbn in H. exact (lstrip_by_head p _ _ _ H).
Qed.

Lemma firstn_prefix {A} (n : nat) (l : list A) : is_prefix (firstn n l) l.
Proof. exists (skipn n l). symmetry. apply firstn_skipn. Qed.

Lemma is_prefix_trans {A} (a b c : list A) :
  is_prefix a b -> is_prefix b c -> is_prefix a c.
Proof.
  intros [s1 ->] [s2 ->]. exists (s1 ++ s2)%list. symmetry. apply app_assoc.
Qed.

Lemma is_prefix_In {A} (a b : list A) (x : A) : is_prefix a b -> In x a -> In x b.
Proof. intros [s ->] H. apply in_or_app. left. exact H. Qed.

Lemma is_prefix_length {A} (a b : list A) : is_prefix a b -> (length a <= length b)%nat.
Proof. intros [s ->]. rewrite length_app. lia. Qed.

Lemma is_prefix_head {A} (a b : list A) (x : A) (r : list A) :
  is_prefix a b -> a = x :: r -> exists r', b = x :: r'.
Proof. intros [s ->] ->. eexists. reflexivity. Qed.

(** The characters of the sanitized name before the fallback: a prefix of
    the substituted name without its leading white space. *)
Lemma sanitize_core_prefix (name : string) :
  is_prefix (Str.chars (sanitize_core name))
            (Str.lstrip_by Str.is_space (Str.chars (re_sub_invalid name))).
Proof.
  unfold sanitize_core, Str.take, Str.rstrip_dots, Str.strip.
  rewrite !chars_of_chars.
  eapply is_prefix_trans; [apply firstn_prefix |].
  eapply is_prefix_trans; [apply rstrip_by_prefix |].
  apply rstrip_by_prefix.
Qed.

Lemma re_sub_invalid_safe (name : string) (c : ascii) :
  In c (Str.chars (re_sub_invalid name)) -> INVALID_FS c = false.
Proof.
  rewrite chars_re_sub_invalid. intros H. apply in_map_iff in H.
  destruct H as (x & Hx & _). destruct (INVALID_FS x) eqn:Hi; subst c;
    [reflexivity | exact Hi].
Qed.

End SanitizerFacts.

(** X1: the sanitized name is never empty, has at most 100 characters and
    holds none of the characters of [INVALID_FS]. *)
Theorem sanitize_safe (name : string) :
  sanitize name <> "" /\
  (String.length (sanitize name) <= 100)%nat /\
  (forall c, In c (Str.chars (sanitize name)) -> INVALID_FS c = false).
Proof.
  destruct (or_else_spec (sanitize_core name) "output") as [[_ Hs] | [Hne Hs]];
    fold (sanitize name) in Hs; rewrite Hs.
  - split; [discriminate |]. split; [cbn; lia |].
    cbn. intros c H. repeat (destruct H as [<- | H]; [reflexivity |]). destruct H.
  - split; [exact Hne |]. split.
    + unfold sanitize_core, Str.take. rewrite length_of_chars, length_firstn. lia.
    + intros c Hc. apply (re_sub_invalid_safe name).
      destruct (lstrip_by_suffix Str.is_space (Str.chars (re_sub_invalid name)))
        as (pre & Heq & _).
      rewrite Heq. apply in_or_app. right.
      exact (is_prefix_In _ _ _ (sanitize_core_prefix name) Hc).
Qed.

(** X2: the sanitized name never starts with white space. *)
Theorem sanitize_no_leading_space (name : string) (c : ascii) (r : string) :
  sanitize name = String c r -> Str.is_space c = false.
Proof.
  destruct (or_else_spec (sanitize_core name) "output") as [[_ Hs] | [_ Hs]];
    fold (sanitize name) in Hs; rewrite Hs; intros H.
  - injection H as <- _. reflexivity.
  - destruct (is_prefix_head _ _ c (Str.chars r) (sanitize_core_prefix name))
      as [r' Hr']; [rewrite H; reflexivity |].
    exact (lstrip_by_head _ _ _ _ Hr').
Qed.

Lemma sanitize_no_leading_space_witness :
  Str.is_space "a"%char = false.
Proof.
  exact (sanitize_no_leading_space "  a/b  " "a"%char "_b" eq_refl).
Defined.

Lemma strip_length (s : string) :
  (length (Str.chars (Str.strip s)) <= String.length s)%nat.
Proof.
  unfold Str.strip. rewrite chars_of_chars, <- length_chars.
  pose proof (is_prefix_length _ _
                (rstrip_by_prefix Str.is_space (Str.lstrip_by Str.is_space (Str.chars s)))).
  destruct (lstrip_by_suffix Str.is_space (Str.chars s)) as (pre & Heq & _).
  rewrite Heq at 2. rewrite length_app. lia.
Qed.

(** X3: a name of at most 100 characters is not truncated, and then its
    sanitized form does not end with a dot. *)
Theorem sanitize_short_no_trailing_dot (name : string) (pre : list ascii) :
  (String.length name <= 100)%nat ->
  Str.chars (sanitize name) <> (pre ++ ["."%char])%list.
Proof.
  intros Hlen.
  destruct (or_else_spec (sanitize_core name) "output") as [[_ Hs] | [_ Hs]];
    fold (sanitize name) in Hs; rewrite Hs; intros H.
  - apply (f_equal (@rev ascii)) in H. rewrite rev_app_distr in H. cbn in H.
    discriminate H.
  - unfold sanitize_core, Str.take in H. rewrite chars_of_chars in H.
    rewrite firstn_all2 in H.
    + unfold Str.rstrip_dots in H. rewrite chars_of_chars in H.
      pose proof (rstrip_by_last _ _ _ _ H) as Hd. discriminate Hd.
    + unfold Str.rstrip_dots. rewrite chars_of_chars.
      pose proof (is_prefix_length _ _
                    (rstrip_by_prefix (Ascii.eqb ".")
                       (Str.chars (Str.strip (re_sub_invalid name))))) as H1.
      pose proof (strip_length (re_sub_invalid name)) as H2.
      assert (H3 : String.length (re_sub_invalid name) = String.length name).
      { rewrite <- !length_chars, chars_re_sub_invalid. apply length_map. }
      lia.
Qed.

Lemma sanitize_short_no_trailing_dot_witness :
  Str.chars (sanitize "Live at Leeds...") <> (Str.chars "Live at Leeds.." ++ ["."%char])%list.
Proof.
  apply (sanitize_short_no_trailing_dot "Live at Leeds..." (Str.chars "Live at Leeds..")).
  cbn. lia.
Defined.

(** ** Scorer *)

(** X4: the boost flag changes nothing but the full-album bonus: the kind
    is the same, and the boosted score is the plain score plus 300 when the
    lower-cased title contains "full album", and equal to it otherwise. *)
Theorem score_boost_effect (e : Entry) :
  snd (score_entry e true) = snd (score_entry e false) /\
  fst (score_entry e true)
    = fst (score_entry e false)
      + (if Str.contains "full album" (Str.lower (title_or_empty (e_title e)))
         then 300 else 0).
Proof.
  unfold score_entry.
  destruct (Str.contains "full album" (Str.lower (title_or_empty (e_title e))));
    destruct (opt_string_eqb (e_type e) "playlist"); cbn [fst snd andb];
    split; try reflexivity; lia.
Qed.

(** X5: a record is a playlist exactly when its [_type] is "playlist"; its
    score is its base metric (the member count of a playlist, one point per
    100000 views of a video, 0 when the key is missing) plus bonuses that
    sum to at least -100 and at most 750, so "review" and "cover" together
    cost 100 once; a record without title scores its base metric. *)
Theorem score_bounds (e : Entry) (boost_full : bool) :
  let base := if opt_string_eqb (e_type e) "playlist"
              then or0 (e_playlist_count e)
              else or0 (e_view_count e) / 100000 in
  snd (score_entry e boost_full)
    = (if opt_string_eqb (e_type e) "playlist" then playlist else video) /\
  base - 100 <= fst (score_entry e boost_full) <= base + 750 /\
  (title_or_empty (e_title e) = "" -> fst (score_entry e boost_full) = base).
Proof.
  cbn zeta. unfold score_entry.
  split; [destruct (opt_string_eqb (e_type e) "playlist"); reflexivity |].
  split.
  - destruct (Re.search struct_pattern _); destruct boost_full;
      destruct (Str.contains "full album" _); destruct (Str.contains "official" _);
      destruct (existsb _ _); destruct (opt_string_eqb (e_type e) "playlist");
      cbn [fst snd andb]; lia.
  - intros ->. change (Str.lower "") with "".
    replace (Re.search struct_pattern "") with false by (vm_compute; reflexivity).
    cbn [Str.contains Str.startswith existsb orb andb].
    rewrite andb_false_r.
    destruct (opt_string_eqb (e_type e) "playlist"); cbn [fst]; lia.
Qed.

(** ** Locators *)

Lemma normalize_url_absolute (kind : Kind) (url : string) :
  Str.startswith (normalize_url kind url) "http" = true.
Proof.
  unfold normalize_url. destruct (Str.startswith url "http") eqn:H; [exact H |].
  destruct kind; reflexivity.
Qed.

(** X6: locator normalisation always yields an absolute URL, leaves an
    absolute URL untouched and so changes nothing when applied twice. *)
Theorem normalize_url_idempotent (kind kind' : Kind) (url : string) :
  Str.startswith (normalize_url kind url) "http" = true /\
  (Str.startswith url "http" = true -> normalize_url kind url = url) /\
  normalize_url kind' (normalize_url kind url) = normalize_url kind url.
Proof.
  split; [apply normalize_url_absolute |].
  assert (H : forall k u, Str.startswith u "http" = true -> normalize_url k u = u).
  { intros k u Hu. unfold normalize_url. rewrite Hu. reflexivity. }
  split; [apply H |]. apply H. apply normalize_url_absolute.
Qed.

(** X7: whatever the provider and the waiting loop do, a locator that the
    search session returns is an absolute URL. *)
Theorem search_best_absolute {W : Type} (world : World W) (wait : waiter)
  (term : string) (verbose : bool) (w : W) (url : string) :
  fst (fst (search_best world wait term verbose w)) = Ret url ->
  Str.startswith url "http" = true.
Proof.
  unfold search_best, bind.
  destruct (search_variants world wait _ _ _ w) as [[[[c |] | e |] t] w1];
    cbn; intros H; try discriminate H.
  injection H as <-. apply normalize_url_absolute.
Qed.

Lemma search_best_absolute_witness :
  Str.startswith "https://www.youtube.com/watch?v=v1" "http" = true.
Proof.
  exact (search_best_absolute two_variant_world wait_done "abba" false tt
           "https://www.youtube.com/watch?v=v1" eq_refl).
Defined.

(** ** Ranking of the candidates *)

Section RankingFacts.

Let K (a b : Cand) : Prop := key_le a b = true.

Lemma key_le_total (a b : Cand) : key_le a b = false -> key_le b a = true.
Proof.
  unfold key_le. intros H. apply orb_false_iff in H as [H1 H2].
  apply Z.ltb_ge in H1. apply orb_true_iff.
  destruct (Z.eq_dec (- c_score a) (- c_score b)) as [Heq | Hne].
  - right. rewrite Heq, Z.eqb_refl in *. cbn in *.
    apply Nat.leb_gt in H2. apply Nat.leb_le. lia.
  - left. apply Z.ltb_lt. lia.
Qed.

Lemma key_le_trans (a b c : Cand) : K a b -> K b c -> K a c.
Proof.
  unfold K, key_le. intros H1 H2.
  apply orb_true_iff in H1. apply orb_true_iff in H2. apply orb_true_iff.
  rewrite !andb_true_iff, !Z.ltb_lt, !Z.eqb_eq, !Nat.leb_le in *. lia.
Qed.

Lemma insert_cand_sorted (c : Cand) (l : list Cand) :
  StronglySorted K l -> StronglySorted K (insert_cand c l).
Proof.
  induction l as [| x r IH]; intros Hs; cbn.
  - constructor; constructor.
  - inversion Hs as [| x' r' Hr Hx]; subst.
    destruct (key_le c x) eqn:Hcx.
    + constructor; [exact Hs |]. constructor; [exact Hcx |].
      apply Forall_forall. intros y Hy. rewrite Forall_forall in Hx.
      exact (key_le_trans c x y Hcx (Hx y Hy)).
    + constructor; [exact (IH Hr) |].
      apply Forall_forall. intros y Hy. apply In_insert_cand in Hy.
      destruct Hy as [-> | Hy]; [exact (key_le_total _ _ Hcx) |].
      rewrite Forall_forall in Hx. exact (Hx y Hy).
Qed.

Lemma sort_cands_sorted (l : list Cand) : StronglySorted K (sort_cands l).
Proof.
  induction l as [| c l IH]; cbn; [constructor | exact (insert_cand_sorted c _ IH)].
Qed.

Lemma insert_cand_perm (c : Cand) (l : list Cand) :
  Permutation (insert_cand c l) (c :: l).
Proof.
  induction l as [| x r IH]; cbn; [reflexivity |].
  destruct (key_le c x); [reflexivity |].
  rewrite IH. apply perm_swap.
Qed.

Lemma sort_cands_perm (l : list Cand) : Permutation (sort_cands l) l.
Proof.
  induction l as [| c l IH]; cbn; [reflexivity |].
  rewrite insert_cand_perm. now constructor.
Qed.

Lemma collect_idx_nodup (wl bf : bool) (entries : list (option Entry)) :
  forall idx, NoDup (map c_idx (collect wl bf idx entries)).
Proof.
  induction entries as [| oe entries IH]; intros idx; [constructor |].
  destruct oe as [e |]; cbn [collect]; [| apply IH].
  destruct (negb wl && has_live e)%bool eqn:Hf;
    unfold has_live in Hf; rewrite Hf; [apply IH |].
  destruct (score_entry e bf) as [sc kd]. cbn [map c_idx]. constructor; [| apply IH].
  intros Hin. apply in_map_iff in Hin. destruct Hin as (c & Hc & Hin).
  apply In_collect in Hin. destruct Hin as (i & e' & _ & _ & ->).
  cbn in Hc. lia.
Qed.

Lemma collect_length (wl bf : bool) (entries : list (option Entry)) :
  forall idx, length (collect wl bf idx entries) = length (filter (eligible wl) entries).
Proof.
  induction entries as [| oe entries IH]; intros idx; [reflexivity |].
  destruct oe as [e |]; cbn [collect filter eligible]; [| apply IH].
  unfold has_live.
  destruct (negb wl && Str.contains "live" _)%bool; cbn [negb]; [apply IH |].
  destruct (score_entry e bf). cbn [length]. f_equal. apply IH.
Qed.

Lemma ranked_of_sorted (l : list Cand) :
  StronglySorted K l -> NoDup (map c_idx l) -> StronglySorted ranked_before l.
Proof.
  induction 1 as [| a l Hs IH Ha]; intros Hn; [constructor |].
  cbn in Hn. inversion Hn as [| i r Hni Hnr]; subst.
  constructor; [exact (IH Hnr) |].
  apply Forall_forall. intros b Hb. rewrite Forall_forall in Ha.
  specialize (Ha b Hb). unfold K, key_le in Ha.
  assert (Hib : c_idx a <> c_idx b).
  { intros Heq. apply Hni. rewrite Heq. apply in_map. exact Hb. }
  apply orb_true_iff in Ha.
  rewrite andb_true_iff, Z.ltb_lt, Z.eqb_eq, Nat.leb_le in Ha.
  unfold ranked_before. lia.
Qed.

End RankingFacts.

(** X8: the candidates of a variant are listed by decreasing score, equal
    scores by increasing position; so the first one, which the session
    selects, has the highest score, and among the records with that score
    it is the earliest in the provider's answer. *)
Theorem candidates_ranked (wl bf : bool) (entries : list (option Entry)) :
  StronglySorted ranked_before (candidates wl bf entries) /\
  (forall best rest,
      candidates wl bf entries = best :: rest ->
      forall c, In c rest -> ranked_before best c).
Proof.
  assert (Hs : StronglySorted ranked_before (candidates wl bf entries)).
  { unfold candidates. apply ranked_of_sorted; [apply sort_cands_sorted |].
    apply (Permutation_NoDup (l := map c_idx (collect wl bf 1 entries)));
      [| apply collect_idx_nodup].
    apply Permutation_map. symmetry. apply sort_cands_perm. }
  split; [exact Hs |].
  intros best rest Heq c Hc. rewrite Heq in Hs.
  inversion Hs as [| b r _ Hall]; subst.
  rewrite Forall_forall in Hall. exact (Hall c Hc).
Qed.

(** X9: every record that is present and passes the live filter gives
    exactly one candidate: the positions of the candidates are pairwise
    distinct and there are as many candidates as eligible records. *)
Theorem candidates_complete (wl bf : bool) (entries : list (option Entry)) :
  NoDup (map c_idx (candidates wl bf entries)) /\
  length (candidates wl bf entries) = length (filter (eligible wl) entries).
Proof.
  unfold candidates. split.
  - apply (Permutation_NoDup (l := map c_idx (collect wl bf 1 entries)));
      [| apply collect_idx_nodup].
    apply Permutation_map. symmetry. apply sort_cands_perm.
  - rewrite (Permutation_length (sort_cands_perm _)). apply collect_length.
Qed.

(** ** Collection Expander *)

Section ExpanderFacts.

Context {W : Type} (world : World W).

(** X13: a collection is expanded into one locator per resolved member, in
    the order of the provider; each locator is absolute (an id becomes a
    watch URL, an absolute URL is kept), unresolved members are skipped,
    and the title falls back to "playlist". *)
Theorem expand_collection (url : string) (w : W) (info : Info) :
  fst (extract_info world false url w) = inr (Some info) ->
  i_type info = Some "playlist" ->
  let urls := map (fun e => normalize_url video (e_url e)) (members info) in
  fst (fst (get_video_list world url w))
    = Ret (urls, true, Str.or_else (title_or_empty (i_title info)) "playlist") /\
  length urls = length (members info) /\
  Forall (fun u => Str.startswith u "http" = true) urls.
Proof.
  intros Hx Ht urls. split; [| split].
  - unfold get_video_list, bind, emit.
    destruct (extract_info world false url w) as [r w1]. cbn in Hx. subst r.
    rewrite Ht. cbn [opt_string_eqb]. rewrite String.eqb_refl. cbn [fst snd].
    f_equal. f_equal. f_equal. unfold urls, members.
    induction (match i_entries info with Some l => l | None => [] end)
      as [| oe l IH]; [reflexivity |].
    cbn [flat_map]. rewrite map_app, IH. destruct oe; reflexivity.
  - apply length_map.
  - apply Forall_forall. intros u Hu. apply in_map_iff in Hu.
    destruct Hu as (e & <- & _). apply normalize_url_absolute.
Qed.

End ExpanderFacts.

Lemma expand_collection_witness :
  let urls := ["https://www.youtube.com/watch?v=id1"; "https://youtu.be/id2"] in
  fst (fst (get_video_list playlist_world "PLx" tt)) = Ret (urls, true, "Best of") /\
  length urls = 2%nat /\
  Forall (fun u => Str.startswith u "http" = true) urls.
Proof.
  exact (expand_collection playlist_world "PLx" tt
           (mkInfo (Some "playlist") (Some "Best of")
              (Some [Some (mkEntry (Some "url") (Some "One") "id1" None None None);
                     None;
                     Some (mkEntry (Some "url") (Some "Two")
                             "https://youtu.be/id2" None None None)]))
           eq_refl eq_refl).
Defined.

(** ** Fetch Orchestrator: destination names *)

Section NamingFacts.

Lemma read_ordinal_zeros (k : nat) (d : string) (n : nat) :
  read_ordinal d = Some n ->
  read_ordinal (Str.of_chars (repeat "0"%char k) ++ d) = Some n.
Proof.
  intros Hd. induction k as [| k IH]; [exact Hd |].
  unfold read_ordinal in *. cbn [repeat Str.of_chars string_of_list_ascii append].
  cbn [NilEmpty.uint_of_string].
  change (string_of_list_ascii (repeat "0"%char k)) with (Str.of_chars (repeat "0"%char k)).
  destruct (NilEmpty.uint_of_string (Str.of_chars (repeat "0"%char k) ++ d)) as [u |];
    [| discriminate IH].
  cbn in IH |- *. injection IH as <-. reflexivity.
Qed.

Lemma read_fmt_03d (i : nat) : read_ordinal (fmt_03d i) = Some i.
Proof.
  unfold fmt_03d. apply read_ordinal_zeros. unfold read_ordinal.
  rewrite NilEmpty.usu. cbn. f_equal. apply Unsigned.of_to.
Qed.

Lemma append_inv_head (a x y : string) : a ++ x = a ++ y -> x = y.
Proof.
  induction a as [| c a IH]; cbn; [auto |]. intros H. injection H as H. exact (IH H).
Qed.

Lemma chars_append (a b : string) :
  Str.chars (a ++ b) = (Str.chars a ++ Str.chars b)%list.
Proof.
  unfold Str.chars. induction a as [| c a IH]; cbn; [reflexivity | now rewrite IH].
Qed.

Lemma chars_inj (a b : string) : Str.chars a = Str.chars b -> a = b.
Proof.
  unfold Str.chars. intros H.
  rewrite <- (string_of_list_ascii_of_string a), <- (string_of_list_ascii_of_string b).
  now rewrite H.
Qed.

Lemma append_inv_tail (x y a : string) : x ++ a = y ++ a -> x = y.
Proof.
  intros H. apply chars_inj. apply (f_equal Str.chars) in H.
  rewrite !chars_append in H. exact (app_inv_tail _ _ _ H).
Qed.

Lemma path_join_inj (a x y : string) : path_join a x = path_join a y -> x = y.
Proof.
  unfold path_join. destruct (rev (Str.chars a)) as [| c r]; [auto |].
  destruct (Ascii.eqb c "/"); intros H.
  - exact (append_inv_head _ _ _ H).
  - apply append_inv_head in H. exact (append_inv_head _ _ _ H).
Qed.

End NamingFacts.

(** X15: the prefix of the destination name of a collection member is its
    ordinal in decimal, padded with zeros to three digits: it reads back as
    the ordinal, it has at least three characters, and exactly three below
    1000. *)
Theorem ordinal_prefix (i : nat) :
  read_ordinal (fmt_03d i) = Some i /\
  (3 <= String.length (fmt_03d i))%nat /\
  ((i < 1000)%nat -> String.length (fmt_03d i) = 3%nat).
Proof.
  split; [apply read_fmt_03d |]. split.
  - unfold fmt_03d. rewrite <- !length_chars, chars_append, length_app, chars_of_chars,
      repeat_length. lia.
  - intros Hi.
    assert (Hall : forallb (fun k => Nat.eqb (String.length (fmt_03d k)) 3) (seq 0 1000)
                   = true) by (vm_compute; reflexivity).
    rewrite forallb_forall in Hall. apply Nat.eqb_eq. apply Hall.
    apply in_seq. lia.
Qed.

(** X16: two members of a collection never get the same destination
    template. *)
Theorem ordinal_templates_distinct (outdir : string) (i j : nat) :
  i <> j ->
  path_join outdir (name_tmpl true i) <> path_join outdir (name_tmpl true j).
Proof.
  intros Hij H. apply Hij. apply path_join_inj in H. unfold name_tmpl in H.
  cbn [negb] in H. apply append_inv_tail in H.
  pose proof (read_fmt_03d i) as Hi. rewrite H, read_fmt_03d in Hi.
  now injection Hi.
Qed.

Lemma ordinal_templates_distinct_witness :
  path_join "Album" (name_tmpl true 2) <> path_join "Album" (name_tmpl true 12).
Proof.
  apply (ordinal_templates_distinct "Album" 2 12). discriminate.
Defined.

(** ** Fetch Orchestrator: the shape of every run *)

Section RunShape.

Context {W : Type} (world : World W).
Variables (fmt outdir : string) (is_playlist embed_thumb : bool).

Lemma download_loop_opts (urls : list string) :
  forall (i : nat) (fails : list (string * string)) (w : W)
         (k : nat) (opts : YdlOpts) (u : string),
    nth_error
      (fetch_opts (snd (fst (download_loop world fmt outdir is_playlist embed_thumb
                               i urls fails w)))) k = Some (opts, u) ->
    nth_error urls k = Some u /\
    opts = build_ydl_opts fmt (path_join outdir (name_tmpl is_playlist (i + k)))
             embed_thumb.
Proof.
  induction urls as [| url rest IH]; intros i fails w k opts u.
  - cbn. destruct k; discriminate.
  - cbn [download_loop]. destruct (download world _ url w) as [o w1].
    assert (Hstep : forall fails',
      nth_error
        (fetch_opts
           (EvDownload
              (build_ydl_opts fmt (path_join outdir (name_tmpl is_playlist i)) embed_thumb)
              url o
            :: snd (fst (download_loop world fmt outdir is_playlist embed_thumb
                           (S i) rest fails' w1)))) k = Some (opts, u) ->
      nth_error (url :: rest) k = Some u /\
      opts = build_ydl_opts fmt (path_join outdir (name_tmpl is_playlist (i + k)))
               embed_thumb).
    { intros fails' H. destruct k as [| k]; cbn in H.
      - injection H as <- <-. rewrite Nat.add_0_r. split; reflexivity.
      - apply IH in H. rewrite Nat.add_succ_r. exact H. }
    destruct o as [e |].
    + destruct (is_DownloadError e).
      * specialize (Hstep (fails ++ [(url, str_exc e)])%list).
        destruct (download_loop world fmt outdir is_playlist embed_thumb (S i) rest
                    (fails ++ [(url, str_exc e)])%list w1) as [[r t] w2].
        exact Hstep.
      * cbn. destruct k as [| [| k]]; cbn; intros H; try discriminate H.
        injection H as <- <-. rewrite Nat.add_0_r. split; reflexivity.
    + specialize (Hstep fails).
      destruct (download_loop world fmt outdir is_playlist embed_thumb (S i) rest
                  fails w1) as [[r t] w2].
      exact Hstep.
Qed.

End RunShape.

Section OrchestratorShape.

Context {W : Type} (world : World W).

Lemma fetch_outcomes_le (t : list event) :
  (length (fetch_outcomes t) <= length t)%nat.
Proof.
  unfold fetch_outcomes. induction t as [| ev t IH]; [cbn; lia |].
  cbn [flat_map]. rewrite length_app. destruct ev; cbn [length]; lia.
Qed.

(** A trace with as many fetches as events creates no directory. *)
Lemma only_fetches (t : list event) :
  length (fetch_outcomes t) = length t -> makedirs_calls t = [].
Proof.
  induction t as [| ev t IH]; [reflexivity |].
  pose proof (fetch_outcomes_le t) as Hle.
  unfold fetch_outcomes, makedirs_calls in *. cbn [flat_map]. rewrite length_app.
  destruct ev; cbn [length app]; intros H; try (exfalso; lia).
  apply IH. lia.
Qed.

Lemma fetch_opts_app (t1 t2 : list event) :
  fetch_opts (t1 ++ t2) = (fetch_opts t1 ++ fetch_opts t2)%list.
Proof. apply flat_map_app. Qed.

(** X17: in every run of the orchestrator the fetch number [k] (from 0) is
    the fetch of the item number [k] of the list, with the options built for
    the destination template of the position [k + 1]: the plain template
    for a single item, the template with the ordinal for a collection. *)
Theorem fetch_uses_ordinal (urls : list string) (fmt outdir : string)
  (is_playlist verbose embed_thumb : bool) (w : W)
  (k : nat) (opts : YdlOpts) (u : string) :
  nth_error
    (fetch_opts (snd (fst (download_list world urls fmt outdir is_playlist verbose
                             embed_thumb w)))) k = Some (opts, u) ->
  nth_error urls k = Some u /\
  opts = build_ydl_opts fmt (path_join outdir (name_tmpl is_playlist (S k))) embed_thumb /\
  o_outtmpl opts
    = path_join outdir
        (if is_playlist then fmt_03d (S k) ++ " - %(title)s.%(ext)s"
         else "%(title)s.%(ext)s").
Proof.
  rewrite download_list_run.
  destruct (makedirs world outdir w) as [[e |] w1]; cbn [fst snd].
  { destruct k; discriminate. }
  pose proof (download_loop_opts world fmt outdir is_playlist embed_thumb urls 1 [] w1
                k opts u) as Hl.
  destruct (download_loop world fmt outdir is_playlist embed_thumb 1 urls [] w1)
    as [[r t] w2]. cbn [fst snd] in Hl.
  intros H.
  assert (Ht : nth_error (fetch_opts t) k = Some (opts, u)).
  { destruct r as [[| f fs] | e |]; cbn [fst snd] in H;
      change (fetch_opts (EvMakedirs outdir :: ?x)) with (fetch_opts x) in H;
      rewrite ?fetch_opts_app in H; cbn in H; rewrite ?app_nil_r in H; exact H. }
  destruct (Hl Ht) as [Hu Ho]. split; [exact Hu |]. split; [exact Ho |].
  rewrite Ho. unfold build_ydl_opts, name_tmpl.
  destruct (String.eqb fmt "mp3"); destruct is_playlist; reflexivity.
Qed.

(** X18: in every run the directory is created once, before any fetch; the
    fetched locators are a prefix of the list, the whole list when the run
    returns and nothing when the directory cannot be created; and a failure
    list is reported at most once, when it is not empty. *)
Theorem download_list_shape (urls : list string) (fmt outdir : string)
  (is_playlist verbose embed_thumb : bool) (w : W) :
  let run := download_list world urls fmt outdir is_playlist verbose embed_thumb w in
  let t := snd (fst run) in
  (exists t', t = EvMakedirs outdir :: t' /\ makedirs_calls t' = []) /\
  is_prefix (attempted t) urls /\
  (fst (fst run) = Ret tt -> attempted t = urls) /\
  (fst (makedirs world outdir w) <> None -> attempted t = []) /\
  (reported t = [] \/ (failures_of t <> [] /\ reported t = [failures_of t])).
Proof.
  cbn zeta. rewrite download_list_run.
  destruct (makedirs world outdir w) as [[e |] w1]; cbn [fst snd].
  { split; [exists []; split; reflexivity |].
    split; [exists urls; reflexivity |].
    split; [discriminate |]. split; [reflexivity |]. left. reflexivity. }
  pose proof (download_loop_run world fmt outdir is_playlist embed_thumb urls 1 [] w1)
    as Hrun. cbn zeta in Hrun.
  destruct (download_loop world fmt outdir is_playlist embed_thumb 1 urls [] w1)
    as [[r t] w2]. cbn [fst snd] in Hrun.
  destruct Hrun as (Hpre & Hlen & Hrep & Hend).
  assert (Hmk : makedirs_calls t = []) by (apply only_fetches; exact Hlen).
  assert (Hat : attempted t = firstn (length t) urls)
    by (rewrite attempted_fetch_outcomes; exact Hpre).
  assert (Hpx : is_prefix (attempted t) urls)
    by (rewrite Hat; apply firstn_prefix).
  assert (Hmk1 : forall x, makedirs_calls (t ++ x) = makedirs_calls x).
  { intros x. unfold makedirs_calls. rewrite flat_map_app.
    fold (makedirs_calls t). rewrite Hmk. reflexivity. }
  assert (Hat1 : forall f, attempted (t ++ [EvFailReport f]) = attempted t).
  { intros f. unfold attempted. rewrite flat_map_app. cbn. apply app_nil_r. }
  assert (Hre1 : forall f, reported (t ++ [EvFailReport f]) = [f]).
  { intros f. unfold reported. rewrite flat_map_app. fold (reported t).
    rewrite Hrep. reflexivity. }
  assert (Hfo1 : forall f, failures_of (t ++ [EvFailReport f]) = failures_of t).
  { intros f. unfold failures_of. rewrite flat_map_app. cbn. apply app_nil_r. }
  destruct Hend as [(Hr & Hex & Hall) | (t0 & o & u & e & Ht & He & Hex & Hr)].
  - subst r. cbn [app].
    change (attempted (EvMakedirs outdir :: ?x)) with (attempted x).
    change (reported (EvMakedirs outdir :: ?x)) with (reported x).
    change (failures_of (EvMakedirs outdir :: ?x)) with (failures_of x).
    rewrite attempted_fetch_outcomes in Hat, Hpx.
    destruct (failures_of t) as [| f fs] eqn:Hf; cbn [fst snd].
    + rewrite app_nil_r.
      change (attempted (EvMakedirs outdir :: t)) with (attempted t).
      change (reported (EvMakedirs outdir :: t)) with (reported t).
      rewrite attempted_fetch_outcomes.
      split; [exists t; split; [reflexivity | exact Hmk] |].
      split; [exact Hpx |]. split; [intros _; exact Hall |].
      split; [intros H; exfalso; apply H; reflexivity |]. left. exact Hrep.
    + change (attempted (EvMakedirs outdir :: ?x)) with (attempted x).
      change (reported (EvMakedirs outdir :: ?x)) with (reported x).
      change (failures_of (EvMakedirs outdir :: ?x)) with (failures_of x).
      rewrite Hat1, Hre1, Hfo1, attempted_fetch_outcomes.
      split; [eexists; split; [reflexivity | rewrite Hmk1; reflexivity] |].
      split; [exact Hpx |]. split; [intros _; exact Hall |].
      split; [intros H; exfalso; apply H; reflexivity |].
      right. split; [discriminate | reflexivity].
  - subst r. cbn [fst snd].
    change (attempted (EvMakedirs outdir :: t)) with (attempted t).
    change (reported (EvMakedirs outdir :: t)) with (reported t).
    split; [exists t; split; [reflexivity | exact Hmk] |].
    split; [exact Hpx |]. split; [discriminate |].
    split; [intros H; exfalso; apply H; reflexivity |]. left. exact Hrep.
Qed.

End OrchestratorShape.

Lemma fetch_uses_ordinal_witness :
  nth_error five_items 2 = Some "https://youtu.be/item3" /\
  build_ydl_opts "mp3" "Album/003 - %(title)s.%(ext)s" false
    = build_ydl_opts "mp3" (path_join "Album" (name_tmpl true 3)) false /\
  o_outtmpl (build_ydl_opts "mp3" "Album/003 - %(title)s.%(ext)s" false)
    = path_join "Album" (fmt_03d 3 ++ " - %(title)s.%(ext)s").
Proof.
  exact (fetch_uses_ordinal (fetch_world "https://youtu.be/item3"
                               (DownloadError "geo-blocked"))
           five_items "mp3" "Album" true false false tt 2
           (build_ydl_opts "mp3" "Album/003 - %(title)s.%(ext)s" false)
           "https://youtu.be/item3" eq_refl).
Defined.

(** ** Task Runner: gathering the tasks *)

Section GatherFacts.

Context {W : Type} (world : World W).

Lemma gather_inputs_concat (w : W) (inputs : list string) :
  (forall inp, In inp inputs -> isfile world inp w = true ->
               exists lines, read_lines world inp w = inr lines) ->
  forall acc,
    gather_inputs world inputs acc w
      = (Ret (acc ++ flat_map (tasks_of_input world w) inputs)%list, [], w).
Proof.
  induction inputs as [| inp rest IH]; intros Hr acc.
  - cbn. rewrite app_nil_r. reflexivity.
  - cbn [gather_inputs flat_map]. unfold tasks_of_input at 1.
    assert (Hrest : forall i, In i rest -> isfile world i w = true ->
                              exists lines, read_lines world i w = inr lines)
      by (intros i Hi; apply Hr; right; exact Hi).
    destruct (isfile world inp w) eqn:Hf.
    + destruct (Hr inp (or_introl eq_refl) Hf) as [lines Hl]. rewrite Hl.
      rewrite (IH Hrest), app_assoc. reflexivity.
    + rewrite (IH Hrest), app_assoc. reflexivity.
Qed.

(** X19: when every input that is a file can be read, the tasks are those
    of the positional inputs, in the order of the command line (a file
    stands for the tasks of its lines, another input for itself), followed
    by the term of [--search] as a search task, whatever its form. *)
Theorem gather_tasks_concat (args : Args) (w : W) :
  (forall inp, In inp (a_inputs args) -> isfile world inp w = true ->
               exists lines, read_lines world inp w = inr lines) ->
  gather_tasks world args w
    = (Ret (flat_map (tasks_of_input world w) (a_inputs args)
            ++ (if Str.opt_truthy (a_search args)
                then [("search", title_or_empty (a_search args))] else []))%list,
       [], w).
Proof.
  intros Hr. unfold gather_tasks, bind.
  rewrite (gather_inputs_concat w (a_inputs args) Hr []). cbn [app].
  destruct (a_search args) as [s |]; cbn [Str.opt_truthy title_or_empty].
  - destruct (Str.truthy s); cbn; rewrite ?app_nil_r; reflexivity.
  - cbn. rewrite app_nil_r. reflexivity.
Qed.

Lemma classify_good (l : string) : good_task (classify l).
Proof.
  unfold good_task, classify. destruct (Str.startswith l "http") eqn:H; cbn;
    [left; split; [reflexivity | exact H] | right; reflexivity].
Qed.

Lemma tasks_of_lines_good (lines : list string) : Forall good_task (tasks_of_lines lines).
Proof.
  unfold tasks_of_lines. induction lines as [| l lines IH]; [constructor |].
  cbn [flat_map]. apply Forall_app. split; [| exact IH].
  destruct (negb (Str.truthy (Str.strip l))); [constructor |].
  constructor; [apply classify_good | constructor].
Qed.

Lemma gather_inputs_good (inputs : list string) :
  forall acc w tasks,
    Forall good_task acc ->
    fst (fst (gather_inputs world inputs acc w)) = Ret tasks ->
    Forall good_task tasks.
Proof.
  induction inputs as [| inp rest IH]; intros acc w tasks Ha.
  - cbn. intros H. injection H as <-. exact Ha.
  - cbn [gather_inputs]. destruct (isfile world inp w).
    + destruct (read_lines world inp w) as [e | lines]; [discriminate |].
      apply IH. apply Forall_app. split; [exact Ha | apply tasks_of_lines_good].
    + apply IH. apply Forall_app. split; [exact Ha |].
      constructor; [apply classify_good | constructor].
Qed.

(** Every gathered task is a search task or a direct locator that starts
    with "http". *)
Lemma gather_tasks_good (args : Args) (w : W) (tasks : list Task) :
  fst (fst (gather_tasks world args w)) = Ret tasks -> Forall good_task tasks.
Proof.
  unfold gather_tasks, bind.
  pose proof (gather_inputs_good (a_inputs args) [] w) as Hg.
  destruct (gather_inputs world (a_inputs args) [] w) as [[r t] w1].
  cbn [fst] in Hg. destruct r as [ts | e |]; try discriminate.
  specialize (Hg ts (Forall_nil _) eq_refl).
  destruct (a_search args) as [s |]; [destruct (Str.truthy s) |]; cbn;
    intros H; injection H as <-; try exact Hg.
  apply Forall_app. split; [exact Hg |].
  constructor; [right; reflexivity | constructor].
Qed.

End GatherFacts.

Lemma gather_tasks_concat_witness :
  gather_tasks file_world mixed_args tt
    = (Ret [("url", "https://youtu.be/x");
            ("search", "# favourites"); ("url", "https://youtu.be/abc");
            ("search", "Band - Album");
            ("search", "Some Band");
            ("search", "https://youtu.be/s")], [], tt).
Proof.
  apply (gather_tasks_concat file_world mixed_args tt).
  intros inp _ _. cbn. destruct (String.eqb inp "list.txt"); eexists; reflexivity.
Defined.

(** ** Task Runner: what a run does to the outside *)

Section RunEvents.

Context {W : Type} (world : World W) (wait : waiter).

Lemma search_variants_events (wl bf : bool) (qs : list string) :
  forall w, Forall is_search_event (snd (fst (search_variants world wait wl bf qs w))).
Proof.
  induction qs as [| q rest IH]; intros w; [constructor |].
  cbn [search_variants]. unfold bind, emit, _search_worker.
  destruct (extract_info world true q w) as [r w1]. cbn [fst snd].
  assert (Hq : is_search_event (EvSearch q)) by (eexists; reflexivity).
  assert (Hrec : Forall is_search_event
                   (let '(_, t, _) := search_variants world wait wl bf rest w1 in
                    EvSearch q :: t)).
  { specialize (IH w1). destruct (search_variants world wait wl bf rest w1) as [[r2 t2] w2].
    constructor; assumption. }
  destruct (wait _).
  - destruct r as [e | [data |]].
    + destruct (search_variants world wait wl bf rest w1) as [[r2 t2] w2]. exact Hrec.
    + destruct (candidates wl bf (entries_or_nil data)).
      * destruct (search_variants world wait wl bf rest w1) as [[r2 t2] w2]. exact Hrec.
      * cbn. constructor; [exact Hq | constructor].
    + cbn. constructor; [exact Hq | constructor].
  - destruct r as [e | [data |]]; cbn; constructor; try exact Hq; constructor.
Qed.

Lemma search_best_events (term : string) (verbose : bool) (w : W) :
  Forall is_search_event (snd (fst (search_best world wait term verbose w))).
Proof.
  unfold search_best, bind.
  pose proof (search_variants_events (want_live_of term) (boost_full_of term)
                (queries_of term) w) as H.
  destruct (search_variants world wait _ _ (queries_of term) w)
    as [[[[c |] | e |] t] w1]; cbn [fst snd] in H; unfold ret, raise;
    cbn [fst snd]; rewrite ?app_nil_r; exact H.
Qed.

Lemma search_best_ret_absolute (term : string) (verbose : bool) (w : W) (url : string) :
  fst (fst (search_best world wait term verbose w)) = Ret url ->
  Str.startswith url "http" = true.
Proof.
  unfold search_best, bind.
  destruct (search_variants world wait _ _ _ w) as [[[[c |] | e |] t] w1];
    cbn; intros H; try discriminate H.
  injection H as <-. apply normalize_url_absolute.
Qed.

Lemma sanitize_nonempty (name : string) : sanitize name <> "".
Proof.
  destruct (or_else_spec (sanitize_core name) "output") as [[_ Hs] | [Hne Hs]];
    fold (sanitize name) in Hs; rewrite Hs; [discriminate | exact Hne].
Qed.

Lemma only_fetches_forall (outdir : string) (t : list event) :
  length (fetch_outcomes t) = length t -> Forall (is_fetch_event outdir) t.
Proof.
  induction t as [| ev t IH]; [constructor |].
  pose proof (fetch_outcomes_le t) as Hle.
  unfold fetch_outcomes in *. cbn [flat_map]. rewrite length_app.
  destruct ev; cbn [length app]; intros H; try (exfalso; lia).
  constructor; [right; left; eauto | apply IH; lia].
Qed.

Lemma download_list_events (urls : list string) (fmt outdir : string)
  (pl verbose th : bool) (w : W) :
  Forall (is_fetch_event outdir)
    (snd (fst (download_list world urls fmt outdir pl verbose th w))).
Proof.
  rewrite download_list_run.
  assert (Hm : is_fetch_event outdir (EvMakedirs outdir)) by (left; reflexivity).
  destruct (makedirs world outdir w) as [[e |] w1]; cbn [fst snd];
    [constructor; [exact Hm | constructor] |].
  pose proof (download_loop_run world fmt outdir pl th urls 1 [] w1) as Hrun.
  cbn zeta in Hrun.
  destruct (download_loop world fmt outdir pl th 1 urls [] w1) as [[r t] w2].
  cbn [fst snd] in Hrun. destruct Hrun as (_ & Hlen & _ & _).
  pose proof (only_fetches_forall outdir t Hlen) as Ht.
  destruct r as [[| f fs] | e |]; cbn [fst snd]; constructor; try exact Hm;
    try exact Ht; apply Forall_app; split; try exact Ht; try constructor;
    [right; right; eauto | constructor].
Qed.

Lemma fetch_event_good (args : Args) (outdir : string) (ev : event) :
  good_event args (EvMakedirs outdir) -> is_fetch_event outdir ev -> good_event args ev.
Proof.
  intros Hd [-> | [(o & u & x & ->) | (f & ->)]]; [exact Hd | exact I | exact I].
Qed.

Lemma search_event_good (args : Args) (ev : event) :
  is_search_event ev -> good_event args ev.
Proof. intros (q & ->). exact I. Qed.

Lemma outdir_good (args : Args) (is_pl : bool) (title : string) :
  good_event args
    (EvMakedirs (if Str.opt_truthy (a_output args) then title_or_empty (a_output args)
                 else if is_pl then sanitize title else "downloads")).
Proof.
  cbn. destruct (a_output args) as [[| c s] |] eqn:Ho; cbn.
  - split; [destruct is_pl; [apply sanitize_nonempty | discriminate] |].
    destruct is_pl; [right; eexists; reflexivity | left; reflexivity].
  - split; [discriminate | reflexivity].
  - split; [destruct is_pl; [apply sanitize_nonempty | discriminate] |].
    destruct is_pl; [right; eexists; reflexivity | left; reflexivity].
Qed.

Lemma run_task_events (args : Args) (task : Task) (w : W) :
  good_task task ->
  Forall (good_event args) (snd (fst (run_task world wait args task w))).
Proof.
  destruct task as [kind val]. intros Hg. unfold run_task.
  assert (Hurl : forall url w1,
    Str.startswith url "http" = true ->
    Forall (good_event args)
      (snd (fst (bind (get_video_list world url)
                   (fun r => let '(urls, is_pl, title) := r in
                             download_list world urls (a_format args)
                               (if Str.opt_truthy (a_output args)
                                then title_or_empty (a_output args)
                                else if is_pl then sanitize title else "downloads")
                               is_pl (a_verbose args) (a_thumbnail args)) w1)))).
  { intros url w1 Hu. unfold bind.
    pose proof (get_video_list_trace world url w1) as [Ht _].
    destruct (get_video_list world url w1) as [[r t] w2]. cbn [fst snd] in Ht. subst t.
    destruct r as [[[urls is_pl] title] | e |]; cbn [fst snd];
      try (constructor; [exact Hu | constructor]).
    match goal with
    | |- context [download_list world ?a ?b ?c ?d ?e ?f ?g] =>
        pose proof (download_list_events a b c d e f g) as Hd;
        destruct (download_list world a b c d e f g) as [[r2 t2] w3]
    end.
    cbn [fst snd] in *. constructor; [exact Hu |].
    eapply Forall_impl; [| exact Hd].
    intros ev. apply fetch_event_good. apply outdir_good. }
  destruct (String.eqb kind "search") eqn:Hk.
  - unfold bind at 1.
    pose proof (search_best_events val (a_verbose args) w) as Hs.
    pose proof (search_best_ret_absolute val (a_verbose args) w) as Ha.
    destruct (search_best world wait val (a_verbose args) w) as [[r t] w1].
    cbn [fst snd] in *.
    assert (Hts : Forall (good_event args) t)
      by (eapply Forall_impl; [| exact Hs]; intros ev; apply search_event_good).
    destruct r as [url | e |]; cbn [fst snd]; try exact Hts.
    specialize (Hurl url w1 (Ha url eq_refl)).
    destruct (bind _ _ w1) as [[r2 t2] w2]. cbn [fst snd] in *.
    apply Forall_app. split; assumption.
  - destruct Hg as [[_ Hv] | Hs]; cbn [fst snd] in *.
    + unfold bind at 1. unfold ret. specialize (Hurl val w Hv).
      destruct (bind _ _ w) as [[r2 t2] w2]. exact Hurl.
    + subst kind. discriminate Hk.
Qed.

Lemma run_tasks_events (args : Args) (tasks : list Task) :
  Forall good_task tasks ->
  forall w, Forall (good_event args) (snd (fst (run_tasks world wait args tasks w))).
Proof.
  induction tasks as [| task rest IH]; intros Hg w; [constructor |].
  inversion Hg as [| x l Hx Hl]; subst.
  cbn [run_tasks]. unfold bind, try_except, emit.
  pose proof (run_task_events args task w Hx) as Ht.
  destruct (run_task world wait args task w) as [[[[] | e |] t] w1]; cbn [fst snd] in *.
  - specialize (IH Hl w1).
    destruct (run_tasks world wait args rest w1) as [[r2 t2] w2].
    apply Forall_app. split; assumption.
  - specialize (IH Hl w1).
    destruct (run_tasks world wait args rest w1) as [[r2 t2] w2].
    cbn [fst snd] in *. apply Forall_app. split; [| exact IH].
    apply Forall_app. split; [exact Ht | constructor; [exact I | constructor]].
  - exact Ht.
Qed.

Lemma cli_events (args : Args) (w : W) :
  Forall (good_event args) (snd (fst (cli world wait args w))).
Proof.
  unfold cli. destruct (a_help args || _)%bool; [constructor |].
  unfold bind at 1.
  pose proof (gather_tasks_pure world args w) as [_ Ht].
  pose proof (gather_tasks_good world args w) as Hg.
  destruct (gather_tasks world args w) as [[r t] w1]. cbn [fst snd] in *. subst t.
  destruct r as [tasks | e |]; try constructor.
  specialize (Hg tasks eq_refl).
  destruct tasks as [| task rest]; [constructor |].
  unfold bind, ret.
  pose proof (run_tasks_events args (task :: rest) Hg w1) as Hr.
  destruct (run_tasks world wait args (task :: rest) w1) as [[r2 t2] w2].
  cbn [fst snd] in *. destruct r2; cbn; rewrite ?app_nil_r; exact Hr.
Qed.

Lemma In_extract_calls (t : list event) (u : string) :
  In u (extract_calls t) -> In (EvExtract u) t.
Proof.
  unfold extract_calls. intros H. apply in_flat_map in H.
  destruct H as (ev & Hev & Hu). destruct ev; cbn in Hu; try contradiction.
  destruct Hu as [<- | []]. exact Hev.
Qed.

Lemma In_makedirs_calls (t : list event) (d : string) :
  In d (makedirs_calls t) -> In (EvMakedirs d) t.
Proof.
  unfold makedirs_calls. intros H. apply in_flat_map in H.
  destruct H as (ev & Hev & Hu). destruct ev; cbn in Hu; try contradiction.
  destruct Hu as [<- | []]. exact Hev.
Qed.

(** X20: whatever the command line, the provider and the waiting loop,
    every locator that a run of [cli] hands to the expander starts with
    "http": it is a positional input or a line of a file of that form, or
    the normalised result of a search. *)
Theorem cli_expands_absolute (args : Args) (w : W) (u : string) :
  In u (extract_calls (snd (fst (cli world wait args w)))) ->
  Str.startswith u "http" = true.
Proof.
  intros H. apply In_extract_calls in H.
  pose proof (cli_events args w) as Hg. rewrite Forall_forall in Hg.
  exact (Hg _ H).
Qed.

(** X21: every directory that a run of [cli] creates has a name that is
    not empty: the value of [--output] when it is given and not empty, and
    otherwise "downloads" or the sanitized title of a collection. *)
Theorem cli_output_directory (args : Args) (w : W) (d : string) :
  In d (makedirs_calls (snd (fst (cli world wait args w)))) ->
  d <> "" /\
  (if Str.opt_truthy (a_output args) then Some d = a_output args
   else d = "downloads" \/ exists title, d = sanitize title).
Proof.
  intros H. apply In_makedirs_calls in H.
  pose proof (cli_events args w) as Hg. rewrite Forall_forall in Hg.
  exact (Hg _ H).
Qed.

End RunEvents.

Lemma cli_expands_absolute_witness :
  Str.startswith "https://youtu.be/good" "http" = true.
Proof.
  apply (cli_expands_absolute one_bad_world (poll_wait 10) one_bad_args tt
           "https://youtu.be/good").
  cbn. right. left. reflexivity.
Defined.

Lemma cli_output_directory_witness :
  "downloads" <> "" /\
  ("downloads" = "downloads" \/ exists title, "downloads" = sanitize title).
Proof.
  apply (cli_output_directory one_bad_world (poll_wait 10) one_bad_args tt "downloads").
  cbn. left. reflexivity.
Defined.

(** ** Task Runner: runs that end early or never *)

Section RunEnds.

Context {W : Type} (world : World W) (wait : waiter).

Lemma cli_runs_tasks (args : Args) (w : W) (tasks : list Task) :
  a_help args = false ->
  fst (fst (gather_tasks world args w)) = Ret tasks ->
  tasks <> [] ->
  cli world wait args w = bind (run_tasks world wait args tasks) (fun _ => ret 0) w.
Proof.
  intros Hh Hg Hne. unfold cli. rewrite Hh. cbn [orb].
  assert (Hgo : (match a_inputs args with [] => true | _ => false end
                 && negb (Str.opt_truthy (a_search args)))%bool = false).
  { destruct (a_inputs args) as [| inp rest] eqn:Hi; [| reflexivity].
    destruct (Str.opt_truthy (a_search args)) eqn:Hs; [reflexivity |].
    exfalso. apply Hne. unfold gather_tasks, bind in Hg. rewrite Hi in Hg.
    cbn in Hg. destruct (a_search args) as [s |]; cbn in Hs.
    - rewrite Hs in Hg. cbn in Hg. congruence.
    - cbn in Hg. congruence. }
  rewrite Hgo. unfold bind at 1.
  pose proof (gather_tasks_pure world args w) as [Hw Ht].
  destruct (gather_tasks world args w) as [[r t] w1]. cbn [fst snd] in *. subst.
  destruct tasks as [| task rest]; [congruence |].
  destruct (bind _ _ w) as [[r2 t2] w2]. reflexivity.
Qed.

Lemma gather_inputs_raise (w : W) (pre : list string) (bad : string)
  (post : list string) (e : exc) :
  (forall inp, In inp pre -> isfile world inp w = true ->
               exists lines, read_lines world inp w = inr lines) ->
  isfile world bad w = true ->
  read_lines world bad w = inl e ->
  forall acc, gather_inputs world (pre ++ bad :: post) acc w = (Raise e, [], w).
Proof.
  intros Hpre Hf Hr. induction pre as [| inp rest IH]; intros acc.
  - cbn. rewrite Hf, Hr. reflexivity.
  - assert (Hrest : forall i, In i rest -> isfile world i w = true ->
                              exists lines, read_lines world i w = inr lines)
      by (intros i Hi; apply Hpre; right; exact Hi).
    cbn [app gather_inputs]. destruct (isfile world inp w) eqn:Hi.
    + destruct (Hpre inp (or_introl eq_refl) Hi) as [lines ->]. apply (IH Hrest).
    + apply (IH Hrest).
Qed.

(** X22: a positional input that is a file and cannot be read ends the
    whole run before any task is started, also the tasks of the inputs
    before it: the exception leaves [cli] and the exit status is 1. *)
Theorem cli_unreadable_file (args : Args) (w : W) (pre : list string) (bad : string)
  (post : list string) (e : exc) :
  a_help args = false ->
  a_inputs args = (pre ++ bad :: post)%list ->
  (forall inp, In inp pre -> isfile world inp w = true ->
               exists lines, read_lines world inp w = inr lines) ->
  isfile world bad w = true ->
  read_lines world bad w = inl e ->
  cli world wait args w = (Raise e, [], w) /\
  exit_status (fst (fst (cli world wait args w))) = Some 1.
Proof.
  intros Hh Hi Hpre Hf Hr.
  assert (Hcli : cli world wait args w = (Raise e, [], w)).
  { assert (Hne : match a_inputs args with [] => true | _ => false end = false)
      by (rewrite Hi; destruct pre; reflexivity).
    unfold cli. rewrite Hh, Hne. cbn [orb andb].
    unfold bind at 1, gather_tasks. unfold bind at 1.
    rewrite Hi, (gather_inputs_raise w pre bad post e Hpre Hf Hr []). reflexivity. }
  rewrite Hcli. split; reflexivity.
Qed.

(** X23: when inputs are given but yield no task (files without any line
    that is not blank), nothing is done and the exit status is 1. *)
Theorem cli_no_task (args : Args) (w : W) :
  a_help args = false ->
  a_inputs args <> [] ->
  fst (fst (gather_tasks world args w)) = Ret [] ->
  cli world wait args w = (Ret 1, [], w).
Proof.
  intros Hh Hi Hg. unfold cli. rewrite Hh. cbn [orb].
  destruct (a_inputs args) as [| inp rest] eqn:Hin; [congruence |].
  cbn [andb]. unfold bind.
  pose proof (gather_tasks_pure world args w) as [Hw Ht].
  destruct (gather_tasks world args w) as [[r t] w1]. cbn [fst snd] in *. subst.
  reflexivity.
Qed.

End RunEnds.

Section RunHangs.

Context {W : Type} (world : World W).

Lemma search_best_spins (fuel : nat) (term : string) (verbose : bool) (w : W) :
  search_best world (poll_wait fuel) term verbose w
    = (Spin, [EvSearch ("ytsearch20:" ++ term)],
       snd (extract_info world true ("ytsearch20:" ++ term) w)).
Proof.
  unfold search_best. destruct (queries_of_head term) as [rest ->].
  unfold bind at 1. cbn [search_variants]. unfold bind, emit, _search_worker.
  destruct (extract_info world true _ w) as [r w1].
  rewrite poll_wait_false. destruct r; reflexivity.
Qed.

Lemma run_task_search_spins (fuel : nat) (args : Args) (v : string) (w : W) :
  run_task world (poll_wait fuel) args ("search", v) w
    = (Spin, [EvSearch ("ytsearch20:" ++ v)],
       snd (extract_info world true ("ytsearch20:" ++ v) w)).
Proof.
  unfold run_task. change (String.eqb "search" "search") with true. cbn iota.
  unfold bind at 1. rewrite search_best_spins. reflexivity.
Qed.

Lemma run_tasks_hang (fuel : nat) (args : Args) (v : string) (post : list Task)
  (pre : list Task) :
  Forall (fun task => fst task = "url") pre ->
  forall w,
    let run := run_tasks world (poll_wait fuel) args (pre ++ ("search", v) :: post) w in
    fst (fst run) = Spin /\
    extract_calls (snd (fst run)) = map snd pre /\
    exists t', snd (fst run) = (t' ++ [EvSearch ("ytsearch20:" ++ v)])%list.
Proof.
  induction pre as [| [kind val] rest IH]; intros Hp w.
  - cbn [app run_tasks map]. unfold bind, try_except.
    rewrite run_task_search_spins. cbn.
    repeat split. exists []. reflexivity.
  - inversion Hp as [| x l Hk Hl]; subst. cbn [fst] in Hk. subst kind.
    specialize (IH Hl). cbn [app run_tasks map snd]. unfold bind, try_except, emit.
    pose proof (run_task_url world (poll_wait fuel) args val w) as [Hx Hs].
    destruct (run_task world (poll_wait fuel) args ("url", val) w)
      as [[[[] | e |] t] w1]; cbn [fst snd] in *; try congruence.
    + specialize (IH w1). cbn zeta in IH.
      destruct (run_tasks world (poll_wait fuel) args _ w1) as [[r2 t2] w2].
      cbn [fst snd] in *. destruct IH as (-> & Hx2 & t' & Ht').
      rewrite extract_calls_app, Hx, Hx2. repeat split.
      exists (t ++ t')%list. rewrite Ht'. apply app_assoc.
    + specialize (IH w1). cbn zeta in IH.
      destruct (run_tasks world (poll_wait fuel) args _ w1) as [[r2 t2] w2].
      cbn [fst snd] in *. destruct IH as (-> & Hx2 & t' & Ht').
      rewrite !extract_calls_app, Hx, Hx2. repeat split.
      exists ((t ++ [EvTaskError val e]) ++ t')%list. rewrite Ht'. apply app_assoc.
Qed.

(** X24: with the waiting loop of the script, a run never gets past its
    first search task: the direct locators before it are handed to the
    expander, the search call of its first variant is the last thing the
    run does, no task after it is started and the run never exits,
    whatever the fuel. *)
Theorem cli_search_task_hangs (fuel : nat) (args : Args) (w : W)
  (pre : list Task) (v : string) (post : list Task) :
  a_help args = false ->
  fst (fst (gather_tasks world args w)) = Ret (pre ++ ("search", v) :: post)%list ->
  Forall (fun task => fst task = "url") pre ->
  let run := cli world (poll_wait fuel) args w in
  fst (fst run) = Spin /\
  exit_status (fst (fst run)) = None /\
  extract_calls (snd (fst run)) = map snd pre /\
  exists t', snd (fst run) = (t' ++ [EvSearch ("ytsearch20:" ++ v)])%list.
Proof.
  intros Hh Hg Hp run. unfold run.
  rewrite (cli_runs_tasks world (poll_wait fuel) args w _ Hh Hg)
    by (destruct pre; discriminate).
  pose proof (run_tasks_hang fuel args v post pre Hp w) as Hr. cbn zeta in Hr.
  unfold bind.
  destruct (run_tasks world (poll_wait fuel) args _ w) as [[r t] w1].
  cbn [fst snd] in Hr. destruct Hr as (-> & Hx & t' & ->).
  cbn [fst snd exit_status]. repeat split; [exact Hx |]. exists t'. reflexivity.
Qed.

End RunHangs.

Lemma cli_unreadable_file_witness :
  cli unreadable_world wait_done
      (mkArgs ["https://youtu.be/x"; "list.txt"] None "mp4" None false false false) tt
    = (Raise (OtherError "PermissionError" "Permission denied"), [], tt) /\
  exit_status
    (fst (fst (cli unreadable_world wait_done
                 (mkArgs ["https://youtu.be/x"; "list.txt"] None "mp4" None
                         false false false) tt))) = Some 1.
Proof.
  apply (cli_unreadable_file unreadable_world wait_done
           (mkArgs ["https://youtu.be/x"; "list.txt"] None "mp4" None false false false)
           tt ["https://youtu.be/x"] "list.txt" []
           (OtherError "PermissionError" "Permission denied")).
  - reflexivity.
  - reflexivity.
  - intros inp [<- | []] H. discriminate H.
  - reflexivity.
  - reflexivity.
Defined.

Lemma cli_no_task_witness :
  cli blank_world wait_done file_args tt = (Ret 1, [], tt).
Proof.
  apply (cli_no_task blank_world wait_done file_args tt).
  - reflexivity.
  - discriminate.
  - reflexivity.
Defined.

Lemma cli_search_task_hangs_witness :
  let run := cli one_bad_world (poll_wait 1000) search_then_url_args tt in
  fst (fst run) = Spin /\
  exit_status (fst (fst run)) = None /\
  extract_calls (snd (fst run)) = ["https://youtu.be/good"] /\
  exists t', snd (fst run) = (t' ++ [EvSearch "ytsearch20:abba"])%list.
Proof.
  apply (cli_search_task_hangs one_bad_world 1000 search_then_url_args tt
           [("url", "https://youtu.be/good")] "abba"
           [("url", "https://youtu.be/later")]).
  - reflexivity.
  - reflexivity.
  - constructor; [reflexivity | constructor].
Defined.

(** ** Fetch Orchestrator: failures under [ignoreerrors] *)

Section IgnoreErrors.

Context {W : Type} (world : World W).

Lemma build_ydl_opts_ignoreerrors (fmt outtmpl_ : string) (embed_thumb : bool) :
  o_ignoreerrors (build_ydl_opts fmt outtmpl_ embed_thumb) = true.
Proof. unfold build_ydl_opts. destruct (String.eqb fmt "mp3"); reflexivity. Qed.

(** Every fetch of the loop is made with [ignoreerrors] set. *)
Lemma download_loop_answers (fmt outdir : string) (pl th : bool) (urls : list string) :
  forall (i : nat) (fails : list (string * string)) (w : W),
    Forall (fetch_answer world)
      (snd (fst (download_loop world fmt outdir pl th i urls fails w))).
Proof.
  induction urls as [| url rest IH]; intros i fails w; [constructor |].
  cbn [download_loop].
  destruct (download world _ url w) as [o w1] eqn:Hd.
  assert (Hev : fetch_answer world
                  (EvDownload (build_ydl_opts fmt (path_join outdir (name_tmpl pl i)) th)
                     url o)).
  { split; [apply build_ydl_opts_ignoreerrors |].
    exists w. rewrite Hd. reflexivity. }
  destruct o as [e |]; [destruct (is_DownloadError e) |].
  - pose proof (IH (S i) (fails ++ [(url, str_exc e)])%list w1) as H.
    destruct (download_loop world fmt outdir pl th (S i) rest _ w1) as [[r t] w2].
    constructor; assumption.
  - constructor; [assumption | constructor].
  - pose proof (IH (S i) fails w1) as H.
    destruct (download_loop world fmt outdir pl th (S i) rest fails w1) as [[r t] w2].
    constructor; assumption.
Qed.

Lemma fetch_answer_no_failure (t : list event) :
  honours_ignoreerrors world ->
  Forall (fetch_answer world) t ->
  failures_of t = [] /\ Forall (fun p => o_ignoreerrors (fst p) = true) (fetch_opts t).
Proof.
  intros Hh Ht. induction Ht as [| ev t Hev Ht [IH1 IH2]]; [split; constructor |].
  unfold failures_of, fetch_opts in *. cbn [flat_map].
  destruct ev as [q | u | d | opts u o | f | v e]; cbn [app];
    try (split; assumption).
  destruct Hev as [Hi [w Ho]].
  split; [| constructor; assumption].
  destruct o as [[m | m | m | c m] |]; try exact IH1.
  symmetry in Ho. specialize (Hh opts u w _ Hi Ho). discriminate Hh.
Qed.

Lemma failures_of_app (t1 t2 : list event) :
  failures_of (t1 ++ t2) = (failures_of t1 ++ failures_of t2)%list.
Proof. apply flat_map_app. Qed.

Lemma reported_app (t1 t2 : list event) :
  reported (t1 ++ t2) = (reported t1 ++ reported t2)%list.
Proof. apply flat_map_app. Qed.

(** C2: [build_ydl_opts] sets [ignoreerrors] on every fetch, so a fetcher
    that keeps to this option returns from a fetch that failed and the
    branch [except DownloadError] is never taken: in every run of the
    orchestrator, whatever items could not be fetched, the list of
    recorded failures is empty and no failure is reported, where the claim
    has the pair of the locator and the reason. *)
Theorem ignoreerrors_hides_failures (urls : list string) (fmt outdir : string)
  (is_playlist verbose embed_thumb : bool) (w : W) :
  honours_ignoreerrors world ->
  let t := snd (fst (download_list world urls fmt outdir is_playlist verbose
                       embed_thumb w)) in
  Forall (fun p => o_ignoreerrors (fst p) = true) (fetch_opts t) /\
  failures_of t = [] /\
  reported t = [].
Proof.
  intros Hh. rewrite download_list_run.
  destruct (makedirs world outdir w) as [[e |] w1]; cbn [fst snd];
    [repeat split; constructor |].
  pose proof (download_loop_run world fmt outdir is_playlist embed_thumb urls 1 [] w1)
    as Hrun.
  pose proof (download_loop_answers fmt outdir is_playlist embed_thumb urls 1 [] w1)
    as Hans.
  cbn zeta in Hrun.
  destruct (download_loop world fmt outdir is_playlist embed_thumb 1 urls [] w1)
    as [[r t] w2].
  cbn [fst snd] in Hrun, Hans.
  destruct (fetch_answer_no_failure t Hh Hans) as [Hf Ho].
  destruct Hrun as (_ & _ & Hrep & Hcases).
  assert (Hnil : r <> Ret [] ->
                 forall f fs, r <> Ret (f :: fs)).
  { intros _ f fs ->.
    destruct Hcases as [(Hr & _) | (t0 & o & u & e & _ & _ & _ & Hr)].
    - rewrite Hf in Hr. cbn in Hr. discriminate Hr.
    - discriminate Hr. }
  destruct r as [[| f fs] | e |]; cbn [fst snd].
  - rewrite app_nil_r. repeat split; assumption.
  - exfalso. apply (Hnil ltac:(discriminate) f fs). reflexivity.
  - repeat split; assumption.
  - repeat split; assumption.
Qed.

End IgnoreErrors.

Lemma ydl_world_honours (broken : string -> option string) :
  honours_ignoreerrors (ydl_world broken).
Proof.
  intros opts u w e Hi H. cbn in H. rewrite Hi in H.
  destruct (broken u); discriminate H.
Qed.

Lemma ignoreerrors_hides_failures_witness :
  let run := download_list (ydl_world item3_blocked) five_items "mp3" "Album"
               true false false tt in
  fst (fst run) = Ret tt /\
  attempted (snd (fst run)) = five_items /\
  Forall (fun p => o_ignoreerrors (fst p) = true) (fetch_opts (snd (fst run))) /\
  failures_of (snd (fst run)) = [] /\
  reported (snd (fst run)) = [].
Proof.
  split; [reflexivity | split; [reflexivity |]].
  apply (ignoreerrors_hides_failures (ydl_world item3_blocked) five_items "mp3"
           "Album" true false false tt).
  apply ydl_world_honours.
Defined.

(** ** Task Runner: the loop, task by task *)

Section TaskLoop.

Context {W : Type} (world : World W) (wait : waiter).

Lemma task_errors_app (t1 t2 : list event) :
  task_errors (t1 ++ t2) = (task_errors t1 ++ task_errors t2)%list.
Proof. apply flat_map_app. Qed.

Lemma search_events_no_error (t : list event) :
  Forall is_search_event t -> task_errors t = [].
Proof.
  induction 1 as [| ev t [q ->] _ IH]; [reflexivity | exact IH].
Qed.

Lemma fetch_events_no_error (outdir : string) (t : list event) :
  Forall (is_fetch_event outdir) t -> task_errors t = [].
Proof.
  induction 1 as [| ev t Hev _ IH]; [reflexivity |].
  destruct Hev as [-> | [(o & u & x & ->) | (f & ->)]]; exact IH.
Qed.

(** The body of the [try] prints no error line of its own. *)
Lemma run_task_no_error_line (args : Args) (task : Task) (w : W) :
  task_errors (snd (fst (run_task world wait args task w))) = [].
Proof.
  destruct task as [kind val]. unfold run_task.
  assert (Hurl : forall url w1,
    task_errors
      (snd (fst (bind (get_video_list world url)
                   (fun r => let '(urls, is_pl, title) := r in
                             download_list world urls (a_format args)
                               (if Str.opt_truthy (a_output args)
                                then title_or_empty (a_output args)
                                else if is_pl then sanitize title else "downloads")
                               is_pl (a_verbose args) (a_thumbnail args)) w1)))
    = []).
  { intros url w1. unfold bind.
    pose proof (get_video_list_trace world url w1) as [Ht _].
    destruct (get_video_list world url w1) as [[r t] w2]. cbn [fst snd] in Ht. subst t.
    destruct r as [[[urls is_pl] title] | e |]; cbn [fst snd]; try reflexivity.
    match goal with
    | |- context [download_list world ?a ?b ?c ?d ?e ?f ?g] =>
        pose proof (download_list_events world a b c d e f g) as Hd;
        destruct (download_list world a b c d e f g) as [[r2 t2] w3]
    end.
    cbn [fst snd] in *. rewrite task_errors_app.
    rewrite (fetch_events_no_error _ _ Hd). reflexivity. }
  destruct (String.eqb kind "search").
  - unfold bind at 1.
    pose proof (search_best_events world wait val (a_verbose args) w) as Hs.
    destruct (search_best world wait val (a_verbose args) w) as [[r t] w1].
    cbn [fst snd] in Hs. apply search_events_no_error in Hs.
    destruct r as [url | e |]; cbn [fst snd]; try exact Hs.
    specialize (Hurl url w1).
    destruct (bind _ _ w1) as [[r2 t2] w2]. cbn [fst snd] in *.
    rewrite task_errors_app, Hs, Hurl. reflexivity.
  - unfold bind at 1. unfold ret. specialize (Hurl val w).
    destruct (bind _ _ w) as [[r2 t2] w2]. exact Hurl.
Qed.

Lemma task_log_no_error_line (args : Args) (tasks : list Task) :
  forall w : W,
    Forall (fun entry => task_errors (snd entry) = [])
      (task_log world wait args tasks w).
Proof.
  induction tasks as [| task rest IH]; intros w; [constructor |].
  cbn [task_log].
  pose proof (run_task_no_error_line args task w) as Hq.
  destruct (run_task world wait args task w) as [[r t] w1]. cbn [fst snd] in Hq.
  constructor; [exact Hq |].
  destruct r; [apply IH | apply IH | constructor].
Qed.

Lemma task_trace_errors (log : list (Task * res unit * list event)) :
  Forall (fun entry => task_errors (snd entry) = []) log ->
  task_errors (flat_map task_trace log) = flat_map task_failure log.
Proof.
  induction 1 as [| [[task r] t] log Hq _ IH]; [reflexivity |].
  cbn [flat_map]. rewrite task_errors_app, IH. cbn [snd] in Hq.
  f_equal. unfold task_trace, task_failure.
  destruct r as [u | e |]; try exact Hq.
  rewrite task_errors_app, Hq. reflexivity.
Qed.

(** The loop of [cli] is the log of its tasks. *)
Lemma run_tasks_log (args : Args) (tasks : list Task) :
  forall w : W,
    let log := task_log world wait args tasks w in
    let run := run_tasks world wait args tasks w in
    snd (fst run) = flat_map task_trace log /\
    fst (fst run) = (if existsb task_hangs log then Spin else Ret tt) /\
    (existsb task_hangs log = false -> map (fun entry => fst (fst entry)) log = tasks).
Proof.
  induction tasks as [| task rest IH]; intros w; cbn zeta.
  - repeat split; reflexivity.
  - cbn [run_tasks task_log]. unfold bind, try_except, emit.
    destruct (run_task world wait args task w) as [[[[] | e |] t] w1].
    + specialize (IH w1). cbn zeta in IH. destruct IH as (IH1 & IH2 & IH3).
      destruct (run_tasks world wait args rest w1) as [[r2 t2] w2].
      cbn [fst snd] in *. cbn [flat_map task_trace existsb task_hangs orb map].
      subst t2. repeat split; [exact IH2 |].
      intros Hh. rewrite (IH3 Hh). reflexivity.
    + specialize (IH w1). cbn zeta in IH. destruct IH as (IH1 & IH2 & IH3).
      destruct (run_tasks world wait args rest w1) as [[r2 t2] w2].
      cbn [fst snd] in *. cbn [flat_map task_trace existsb task_hangs orb map].
      subst t2. repeat split; [exact IH2 |].
      intros Hh. rewrite (IH3 Hh). reflexivity.
    + cbn [fst snd flat_map task_trace existsb task_hangs orb map].
      rewrite app_nil_r. repeat split. intros Hh. discriminate Hh.
Qed.

(** C8 (amended): a run with at least one task is its tasks one after the
    other, each started where the one before it stopped, whether that one
    returned or raised. The trace of the run is, task by task, what the
    task did, followed by the line with the task and its exception when it
    raised; so the error lines of the run are exactly the failed tasks with
    their exceptions, in order. When no task is still waiting in a search,
    every task was started, in order, and the exit status is 0 whether or
    not a task failed; otherwise the run has no exit status. *)
Theorem cli_continues_past_failures (args : Args) (w : W) (tasks : list Task) :
  a_help args = false ->
  fst (fst (gather_tasks world args w)) = Ret tasks ->
  tasks <> [] ->
  let run := cli world wait args w in
  let log := task_log world wait args tasks w in
  snd (fst run) = flat_map task_trace log /\
  task_errors (snd (fst run)) = flat_map task_failure log /\
  (existsb task_hangs log = false ->
   map (fun entry => fst (fst entry)) log = tasks /\
   exit_status (fst (fst run)) = Some 0) /\
  (existsb task_hangs log = true -> fst (fst run) = Spin).
Proof.
  intros Hh Hg Hne. cbn zeta.
  rewrite (cli_runs_tasks world wait args w tasks Hh Hg Hne).
  pose proof (run_tasks_log args tasks w) as Hlog. cbn zeta in Hlog.
  pose proof (task_trace_errors _ (task_log_no_error_line args tasks w)) as Herr.
  destruct Hlog as (Ht & Hr & Hall). unfold bind, ret.
  destruct (run_tasks world wait args tasks w) as [[r t] w1]. cbn [fst snd] in *.
  subst t.
  assert (Htrace : snd (fst (match r with
                             | Ret _ => (Ret 0, flat_map task_trace
                                                  (task_log world wait args tasks w) ++ [], w1)
                             | Raise e => (Raise e, flat_map task_trace
                                                      (task_log world wait args tasks w), w1)
                             | Spin => (Spin, flat_map task_trace
                                                (task_log world wait args tasks w), w1)
                             end%list))
                   = flat_map task_trace (task_log world wait args tasks w)).
  { destruct r; cbn [fst snd]; rewrite ?app_nil_r; reflexivity. }
  split; [exact Htrace |]. split; [rewrite Htrace; exact Herr |]. split.
  - intros Hn. split; [exact (Hall Hn) |]. rewrite Hn in Hr. subst r. reflexivity.
  - intros Hy. rewrite Hy in Hr. subst r. reflexivity.
Qed.

End TaskLoop.

Lemma cli_continues_past_failures_witness :
  let run := cli unavailable_world (poll_wait 10) one_bad_args tt in
  let log := task_log unavailable_world (poll_wait 10) one_bad_args
               [("url", "https://youtu.be/bad"); ("url", "https://youtu.be/good")] tt in
  snd (fst run) = flat_map task_trace log /\
  task_errors (snd (fst run))
    = [("https://youtu.be/bad",
        AttributeError "'NoneType' object has no attribute 'get'")] /\
  (existsb task_hangs log = false ->
   map (fun entry => fst (fst entry)) log
     = [("url", "https://youtu.be/bad"); ("url", "https://youtu.be/good")] /\
   exit_status (fst (fst run)) = Some 0) /\
  (existsb task_hangs log = true -> fst (fst run) = Spin).
Proof.
  exact (cli_continues_past_failures unavailable_world (poll_wait 10) one_bad_args tt
           [("url", "https://youtu.be/bad"); ("url", "https://youtu.be/good")]
           eq_refl eq_refl
           (fun H => eq_ind nil (fun l => match l with nil => True | _ => False end)
                       I _ (eq_sym H))).
Defined.

(** ** The progress tracker of one item *)

Module ProgressFacts.
Import Progress.

(** One call of the hook keeps the protocol: from a tracker without bar,
    or with a bar of positive total, what is drawn extends the display
    lawfully and the new tracker is of the same kind. *)
Lemma hook_step (self : option Bar) (d : Tick) (rest : list shown) :
  0 <= tick_total d ->
  (forall b, self = Some b -> 0 < b_total b) ->
  let s1 := fst (hook self d) in
  (forall b, s1 = Some b -> 0 < b_total b) /\
  (protocol (option_map b_total s1) rest ->
   protocol (option_map b_total self) (snd (hook self d) ++ rest)).
Proof.
  intros Htot Hself. cbn zeta. unfold hook.
  destruct (String.eqb (status d) "downloading").
  - destruct self as [b |].
    + pose proof (Hself b eq_refl) as Hb. cbn [bar_truthy].
      apply Z.ltb_lt in Hb. rewrite Hb. cbn [negb andb]. rewrite Hb.
      cbn [fst snd app option_map b_total]. split.
      * intros b' H. injection H as <-. cbn. now apply Z.ltb_lt.
      * intros H. split; [reflexivity | exact H].
    + cbn [bar_truthy negb andb].
      destruct (tick_total d =? 0) eqn:Hz; cbn [negb].
      * cbn. split; [intros b H; discriminate H | auto].
      * apply Z.eqb_neq in Hz.
        assert (Hpos : 0 < tick_total d) by lia.
        cbn [b_total]. apply Z.ltb_lt in Hpos. rewrite Hpos.
        cbn [fst snd app option_map b_total]. apply Z.ltb_lt in Hpos. split.
        -- intros b' H. injection H as <-. exact Hpos.
        -- intros H. repeat split; [exact Hpos | exact H].
  - destruct (String.eqb (status d) "finished" && bar_truthy self)%bool eqn:Hf.
    + destruct self as [b |]; cbn [fst snd app option_map].
      * split; [intros b' H; discriminate H |].
        intros H. repeat split. exact H.
      * split; [intros b' H; discriminate H | auto].
    + cbn [fst snd app]. split; [exact Hself | auto].
Qed.

Lemma feed_protocol (ticks : list Tick) :
  Forall (fun d => 0 <= tick_total d) ticks ->
  forall self,
    (forall b, self = Some b -> 0 < b_total b) ->
    protocol (option_map b_total self) (snd (feed self ticks)).
Proof.
  induction 1 as [| d rest Hd Hrest IH]; intros self Hself; [exact I |].
  cbn [feed].
  pose proof (hook_step self d (snd (feed (fst (hook self d)) rest)) Hd Hself) as Hs.
  cbn zeta in Hs. destruct Hs as [Hs1 Hp].
  specialize (IH (fst (hook self d)) Hs1).
  destruct (hook self d) as [s1 o1]. cbn [fst snd] in *.
  destruct (feed s1 rest) as [s2 o2]. cbn [fst snd] in *.
  exact (Hp IH).
Qed.

(** X25: when the totals announced by the fetcher are not negative, the
    display of a fresh tracker follows the protocol, whatever the ticks: a
    bar is opened only when none is open, it keeps the total it was opened
    with even when later ticks announce another one, it is closed showing
    its total as done, and nothing is drawn after a close until a new bar
    is opened. *)
Theorem progress_protocol (ticks : list Tick) :
  Forall (fun d => 0 <= tick_total d) ticks ->
  protocol None (snd (feed None ticks)).
Proof.
  intros H. apply (feed_protocol ticks H None). intros b Hb. discriminate Hb.
Qed.

(** X26: as long as no tick announces a total (no [total_bytes] and no
    estimate, or 0), nothing is drawn and no bar is built, also when the
    download finishes. *)
Theorem progress_unknown_total (ticks : list Tick) :
  Forall (fun d => tick_total d = 0) ticks ->
  feed None ticks = (None, []).
Proof.
  induction 1 as [| d rest Hd Hrest IH]; [reflexivity |].
  cbn [feed]. unfold hook. rewrite Hd. cbn [bar_truthy negb andb Z.eqb].
  rewrite andb_false_r.
  destruct (String.eqb (status d) "downloading");
    [| destruct (String.eqb (status d) "finished")]; cbn; rewrite IH; reflexivity.
Qed.

Lemma progress_protocol_witness :
  protocol None
    [Opened (mkBar 300 0 "a.mp3"); Refreshed (mkBar 300 120 "a.mp3");
     Refreshed (mkBar 300 200 "a.mp3"); Closed (mkBar 300 300 "a.mp3")].
Proof.
  apply (progress_protocol sample_ticks).
  repeat constructor; cbn; discriminate.
Defined.

Lemma progress_unknown_total_witness :
  feed None [mkTick "downloading" None (Some 0) (Some 10) None;
             mkTick "finished" None None None None] = (None, []).
Proof.
  apply (progress_unknown_total
           [mkTick "downloading" None (Some 0) (Some 10) None;
            mkTick "finished" None None None None]).
  repeat constructor.
Defined.

End ProgressFacts.
